(** * Program instrumentation and complexity engine (metrics.py)

    A shallow embedding of [CyclomaticComplexityCalculator], of
    [UniversalEnergyMonitor.calculate_cyclomatic_complexity] and of the
    choice of a file and of its command.

    Conventions of the embedding.
    - A Python [str] is a [text]: the list of its characters.  Characters are
      [ascii] values, read as the code points 0..255; the character tables
      below ([py_lower], [is_word]) are CPython's on that range.
    - Python integers are [Z].
    - [re.sub] and [re.findall] are the leftmost, non-overlapping scans of the
      [re] module; every regular expression literal of the source is
      represented by a matcher giving the length of its match at the current
      position.
    - [ast.parse] belongs to CPython, not to the repository: the Python path
      is parametric in it.
    - The recursion limit of the interpreter is a parameter of the module
      [Limited], the syntax-tree path as the [try] of [analyze_python] sees
      it; outside of [Limited] the walk is taken to return.
    - Floating-point arithmetic is not modelled: [calculate_energy_consumption]
      is left out. *)

From Stdlib Require Import Ascii String.
From Stdlib Require Import List Bool Arith ZArith Lia Permutation.
Import ListNotations.

Set Implicit Arguments.
Open Scope list_scope.

(** ** Text *)

Definition text := list ascii.

Definition T (s : string) : text := list_ascii_of_string s.
Arguments T s%_string.

Definition newline : ascii := "010"%char.
Definition slash : ascii := "/"%char.
Definition star : ascii := "*"%char.
Definition hash : ascii := "#"%char.
Definition dquote : ascii := "034"%char.
Definition squote : ascii := "'"%char.
Definition backtick : ascii := "`"%char.
Definition backslash : ascii := "092"%char.

Definition text_eqb (a b : text) : bool :=
  if list_eq_dec ascii_dec a b then true else false.

(** [s.startswith(p)] *)
Fixpoint starts_with (p s : text) : bool :=
  match p, s with
  | [], _ => true
  | _ :: _, [] => false
  | a :: p', c :: s' => Ascii.eqb a c && starts_with p' s'
  end.

(** [s.find(p)], with [None] for -1. *)
Fixpoint find (p s : text) : option nat :=
  if starts_with p s then Some 0
  else match s with
       | [] => None
       | _ :: r => option_map S (find p r)
       end.

(** Number of characters before the first line feed. *)
Fixpoint line_len (s : text) : nat :=
  match s with
  | [] => 0
  | c :: r => if Ascii.eqb c newline then 0 else S (line_len r)
  end.

(** ** The scans of the [re] module *)

Section Scan.

(** [m s] is the length of the match of the pattern that starts at the
    current position, [s] being the text from that position on. *)
Variable m : text -> option nat.
Variable repl : text.

(** [re.sub(pattern, repl, s)]: [pending] counts the characters of the
    current match that are still to be consumed. *)
Fixpoint re_sub (pending : nat) (s : text) : text :=
  match s with
  | [] => []
  | c :: r =>
      match pending with
      | S k => re_sub k r
      | O =>
          match m s with
          | Some (S n) => repl ++ re_sub n r
          | _ => c :: re_sub 0 r
          end
      end
  end.

End Scan.

(** [marker.*$] under [re.MULTILINE]: from the marker to the end of the line. *)
Definition m_line (marker : text) (s : text) : option nat :=
  if starts_with marker s
  then Some (length marker + line_len (skipn (length marker) s))
  else None.

(** [/\*.*?\*/] under [re.DOTALL]: from the opener to the first closer. *)
Definition m_block (s : text) : option nat :=
  if starts_with [slash; star] s
  then option_map (fun j => 2 + j + 2) (find [star; slash] (skipn 2 s))
  else None.

(** [q[^q]*q] for a quote character [q]. *)
Definition m_quoted (q : ascii) (s : text) : option nat :=
  match s with
  | c :: r => if Ascii.eqb c q then option_map (fun j => j + 2) (find [q] r) else None
  | [] => None
  end.

Definition remove_comments_and_strings (code_content : text) : text :=
  (* Remove single-line comments *)
  let code_content := re_sub (m_line [slash; slash]) [] 0 code_content in
  let code_content := re_sub (m_line [hash]) [] 0 code_content in
  (* Remove multi-line comments *)
  let code_content := re_sub m_block [] 0 code_content in
  (* Remove string literals *)
  let code_content := re_sub (m_quoted dquote) [dquote; dquote] 0 code_content in
  let code_content := re_sub (m_quoted squote) [squote; squote] 0 code_content in
  let code_content := re_sub (m_quoted backtick) [backtick; backtick] 0 code_content in
  code_content.

(** ** Character tables *)

Definition code (c : ascii) : N := N_of_ascii c.

Definition in_range (lo hi : N) (c : ascii) : bool :=
  (lo <=? code c)%N && (code c <=? hi)%N.

(** [str.lower] on one character: [A-Z] and the Latin-1 capitals. *)
Definition py_lower (c : ascii) : ascii :=
  if in_range 65 90 c || (in_range 192 222 c && negb (code c =? 215)%N)
  then ascii_of_N (code c + 32)
  else c.

(** The class [\w] of a [str] pattern: alphanumeric or underscore. *)
Definition is_word (c : ascii) : bool :=
  in_range 48 57 c || in_range 65 90 c || (code c =? 95)%N || in_range 97 122 c
  || (code c =? 170)%N || in_range 178 179 c || (code c =? 181)%N
  || in_range 185 186 c || in_range 188 190 c
  || in_range 192 214 c || in_range 216 246 c || in_range 248 255 c.

Definition word_char (o : option ascii) : bool :=
  match o with
  | Some c => is_word c
  | None => false
  end.

(** [\b] between the character before the position and the one after it;
    outside of the text counts as a non-word character. *)
Definition at_boundary (prev next : option ascii) : bool :=
  xorb (word_char prev) (word_char next).

(** A literal under [re.IGNORECASE]. *)
Fixpoint starts_with_ci (p s : text) : bool :=
  match p, s with
  | [], _ => true
  | _ :: _, [] => false
  | a :: p', c :: s' => Ascii.eqb (py_lower a) (py_lower c) && starts_with_ci p' s'
  end.

(** The character that precedes position [n] of [s], [prev] preceding [s]. *)
Definition char_before (prev : option ascii) (s : text) (n : nat) : option ascii :=
  match n with
  | O => prev
  | S k => nth_error s k
  end.

Section Findall.

(** As for [re_sub], with the character before the position for [\b]. *)
Variable m : option ascii -> text -> option nat.

(** [re.findall(pattern, s)]: the matched substrings, left to right. *)
Fixpoint re_findall (prev : option ascii) (pending : nat) (s : text) : list text :=
  match s with
  | [] => []
  | c :: r =>
      match pending with
      | S k => re_findall (Some c) k r
      | O =>
          match m prev s with
          | Some (S n) => firstn (S n) s :: re_findall (Some c) n r
          | _ => re_findall (Some c) 0 r
          end
      end
  end.

End Findall.

(** The four shapes of pattern that [count_complexity_keywords] builds. *)
Inductive pattern : Type :=
| AndOr                       (* r'\&\&|\|\|' *)
| Question                    (* r'\?' *)
| Arrow                       (* r'=>' *)
| Word (keyword : text).      (* r'\b' + re.escape(keyword) + r'\b' *)

Definition m_pattern (p : pattern) (prev : option ascii) (s : text) : option nat :=
  match p with
  | AndOr => if starts_with (T "&&") s || starts_with (T "||") s then Some 2 else None
  | Question => if starts_with (T "?") s then Some 1 else None
  | Arrow => if starts_with (T "=>") s then Some 2 else None
  | Word keyword =>
      if at_boundary prev (hd_error s)
         && starts_with_ci keyword s
         && at_boundary (char_before prev s (length keyword))
                        (nth_error s (length keyword))
      then Some (length keyword)
      else None
  end.

Definition In_b (x : text) (l : list text) : bool := existsb (text_eqb x) l.

Definition keyword_pattern (keyword : text) : pattern :=
  if In_b keyword [T "&&"; T "||"] then AndOr
  else if text_eqb keyword (T "?") then Question
  else if text_eqb keyword (T "=>") then Arrow
  else Word keyword.

(** [len(re.findall(pattern, cleaned_code, re.IGNORECASE))] *)
Definition matches (keyword : text) (cleaned_code : text) : list text :=
  re_findall (m_pattern (keyword_pattern keyword)) None 0 cleaned_code.

Definition count_complexity_keywords (code_content : text) (keywords : list text) : Z :=
  let cleaned_code := remove_comments_and_strings code_content in
  let complexity := 1%Z in (* Base complexity *)
  let complexity :=
    fold_left (fun complexity keyword =>
                 (complexity + Z.of_nat (length (matches keyword cleaned_code)))%Z)
              keywords complexity in
  Z.max complexity 1.

Definition java_keywords : list text :=
  map T ["if"; "else if"; "while"; "for"; "switch"; "case"; "catch";
         "throw"; "throws"; "&&"; "||"; "?"; "do"]%string.
Definition javascript_keywords : list text :=
  map T ["if"; "else if"; "while"; "for"; "switch"; "case"; "catch";
         "throw"; "&&"; "||"; "?"; "do"; "function"; "=>"]%string.
Definition c_cpp_keywords : list text :=
  map T ["if"; "else if"; "while"; "for"; "switch"; "case"; "catch";
         "throw"; "&&"; "||"; "?"; "do"]%string.
Definition go_keywords : list text :=
  map T ["if"; "else if"; "while"; "for"; "switch"; "case"; "defer";
         "&&"; "||"; "func"; "go"; "select"]%string.
Definition csharp_keywords : list text :=
  map T ["if"; "else if"; "while"; "for"; "foreach"; "switch"; "case";
         "catch"; "throw"; "&&"; "||"; "?"; "do"]%string.
Definition php_keywords : list text :=
  map T ["if"; "elseif"; "while"; "for"; "foreach"; "switch"; "case";
         "catch"; "throw"; "&&"; "||"; "?"; "do"; "function"]%string.
Definition ruby_keywords : list text :=
  map T ["if"; "elsif"; "while"; "for"; "case"; "when"; "rescue";
         "raise"; "&&"; "||"; "?"; "def"; "unless"; "until"]%string.
Definition generic_keywords : list text :=
  map T ["if"; "else"; "while"; "for"; "switch"; "case"; "catch";
         "throw"; "&&"; "||"; "?"; "function"; "def"]%string.

Definition analyze_java (code_content : text) : Z :=
  count_complexity_keywords code_content java_keywords.
Definition analyze_javascript (code_content : text) : Z :=
  count_complexity_keywords code_content javascript_keywords.
Definition analyze_c_cpp (code_content : text) : Z :=
  count_complexity_keywords code_content c_cpp_keywords.
Definition analyze_go (code_content : text) : Z :=
  count_complexity_keywords code_content go_keywords.
Definition analyze_csharp (code_content : text) : Z :=
  count_complexity_keywords code_content csharp_keywords.
Definition analyze_php (code_content : text) : Z :=
  count_complexity_keywords code_content php_keywords.
Definition analyze_ruby (code_content : text) : Z :=
  count_complexity_keywords code_content ruby_keywords.
Definition analyze_generic (code_content : text) : Z :=
  count_complexity_keywords code_content generic_keywords.

(** ** The syntax trees of the [ast] module

    A node carries the name of its class and its fields in the order of
    [_fields]; a field holds the nodes found in it (one for a node-valued
    field, the items for a list-valued one, none for identifiers, constants
    and [None]). *)

#[warnings="-register-all"]
Inductive node : Type :=
| Node (cls : string) (fields : list (string * list node)).

Definition cls (n : node) : string :=
  match n with Node c _ => c end.

Definition fields (n : node) : list (string * list node) :=
  match n with Node _ fs => fs end.

(** [node.name] for a list-valued field.  The parser gives every node the
    fields of its class; a field that a tree built by hand would lack reads
    as empty here. *)
Definition attr (n : node) (name : string) : list node :=
  match List.find (fun f => String.eqb (fst f) name) (fields n) with
  | Some f => snd f
  | None => []
  end.

(** [ast.iter_child_nodes(node)] *)
Definition iter_child_nodes (n : node) : list node :=
  concat (map snd (fields n)).

(** [isinstance(node, (ast.C1, ..., ast.Cn))] *)
Definition isinstance (n : node) (classes : list string) : bool :=
  existsb (String.eqb (cls n)) classes.

Record Calculator : Type := { complexity : Z }.

Definition add_complexity (self : Calculator) (k : Z) : Calculator :=
  {| complexity := complexity self + k |}.

(** The [if]/[elif] chain of [visit_python_node]. *)
Definition visit_own (self : Calculator) (n : node) : Calculator :=
  if isinstance n ["FunctionDef"]%string then add_complexity self 1
  else if isinstance n ["If"; "While"; "For"; "AsyncFor"]%string then add_complexity self 1
  else if isinstance n ["ExceptHandler"; "Try"]%string then add_complexity self 1
  else if isinstance n ["BoolOp"]%string then
    add_complexity self (Z.of_nat (length (attr n "values")) - 1)
  else if isinstance n ["IfExp"]%string then add_complexity self 1
  else if isinstance n ["ListComp"; "DictComp"; "SetComp"; "GeneratorExp"]%string then
    fold_left
      (fun self generator =>
         match attr generator "ifs" with
         | [] => self
         | ifs => add_complexity self (Z.of_nat (length ifs))
         end)
      (attr n "generators") self
  else if isinstance n ["Lambda"]%string then add_complexity self 1
  else self.

Fixpoint visit_python_node (self : Calculator) (n : node) {struct n} : Calculator :=
  match n with
  | Node _ fs =>
      let self := visit_own self n in
      fold_left
        (fun self field => fold_left visit_python_node (snd field) self)
        fs self
  end.

(** What a call returns or raises. *)
Inductive outcome (A : Type) : Type :=
| Returns (a : A)
| Raises (exception : string).
Arguments Raises {A} exception.

Section PythonPath.

(** [ast.parse] *)
Variable ast_parse : text -> outcome node.

(** The bare [except] turns whatever [ast.parse] raises into the result 0.
    Here the walk is taken to return, as it does on a tree that the
    interpreter has the frames for; [Limited.analyze_python] below is the
    same function under the recursion limit of the interpreter. *)
Definition analyze_python (self : Calculator) (code_content : text) : Z * Calculator :=
  match ast_parse code_content with
  | Returns tree =>
      let self := {| complexity := 1 |} in (* Base complexity *)
      let self := visit_python_node self tree in
      (complexity self, self)
  | Raises _ => (0%Z, self)
  end.

End PythonPath.

(** ** Dispatch on the extension *)

(** [p.rfind(c)], -1 when absent. *)
Fixpoint rfind_from (c : ascii) (i : Z) (best : Z) (p : text) : Z :=
  match p with
  | [] => best
  | x :: r => rfind_from c (i + 1) (if Ascii.eqb x c then i else best) r
  end.

Definition rfind (c : ascii) (p : text) : Z := rfind_from c 0 (-1) p.

(** [p[i:j]] for [0 <= i]. *)
Definition slice (p : text) (i j : Z) : text :=
  firstn (Z.to_nat (j - i)) (skipn (Z.to_nat i) p).

(** [os.path.splitext] of [posixpath]. *)
Definition splitext (p : text) : text * text :=
  let sepIndex := rfind "/"%char p in
  let dotIndex := rfind "."%char p in
  if (dotIndex >? sepIndex)%Z then
    (* skip all leading dots *)
    let filenameIndex := (sepIndex + 1)%Z in
    if forallb (fun c => Ascii.eqb c "."%char) (slice p filenameIndex dotIndex)
    then (p, [])
    else (firstn (Z.to_nat dotIndex) p, skipn (Z.to_nat dotIndex) p)
  else (p, []).

(** [str.lower] *)
Definition lower (s : text) : text := map py_lower s.

Section Dispatch.

Variable ast_parse : text -> outcome node.

Definition calculate_complexity (self : Calculator) (file_path code_content : text)
  : Z * Calculator :=
  let ext := snd (splitext (lower file_path)) in
  if text_eqb ext (T ".py") then analyze_python ast_parse self code_content
  else if In_b ext [T ".java"] then (analyze_java code_content, self)
  else if In_b ext [T ".js"; T ".jsx"; T ".ts"; T ".tsx"] then
    (analyze_javascript code_content, self)
  else if In_b ext [T ".c"; T ".cpp"; T ".cc"; T ".cxx"; T ".h"; T ".hpp"] then
    (analyze_c_cpp code_content, self)
  else if text_eqb ext (T ".go") then (analyze_go code_content, self)
  else if In_b ext [T ".cs"] then (analyze_csharp code_content, self)
  else if In_b ext [T ".php"] then (analyze_php code_content, self)
  else if In_b ext [T ".rb"] then (analyze_ruby code_content, self)
  else (analyze_generic code_content, self).

End Dispatch.

(** ** The recursion limit of the interpreter

    [visit_python_node] calls itself for every child node, inside the [try]
    of [analyze_python], whose bare [except] also catches the
    [RecursionError] that CPython raises when the call stack grows beyond
    [sys.getrecursionlimit()].  [frames] is the number of frames that the
    interpreter still allows when [analyze_python] calls the walk: the
    limit less the depth of the stack at that point.  A call of
    [visit_python_node] takes one frame; the loop over
    [ast.iter_child_nodes(node)] takes two more while it fetches a child,
    one for the generator and one for [ast.iter_fields], which the
    generator calls. *)

(** Number of nodes on the longest path from a node down to a leaf. *)
Fixpoint height (n : node) {struct n} : nat :=
  match n with
  | Node _ fs => S (list_max (map (fun field => list_max (map height (snd field))) fs))
  end.

Module Limited.

(** How a walk ends: it returns, or it raises [RecursionError]; either way
    with the counter as the walk left it. *)
Inductive walked : Type :=
| Done (self : Calculator)
| Overflow (self : Calculator).

(** [for child in children: visit(child)] *)
Fixpoint for_each (visit : Calculator -> node -> walked)
         (self : Calculator) (children : list node) : walked :=
  match children with
  | [] => Done self
  | child :: rest =>
      match visit self child with
      | Done self => for_each visit self rest
      | Overflow self => Overflow self
      end
  end.

Fixpoint visit_python_node (frames : nat) (self : Calculator) (n : node) : walked :=
  match frames with
  | O => Overflow self
  | S frames' =>
      let self := visit_own self n in
      if frames' <? 2 then Overflow self
      else for_each (visit_python_node frames') self (iter_child_nodes n)
  end.

Section PythonPath.

Variable frames : nat.
Variable ast_parse : text -> outcome node.

Definition analyze_python (self : Calculator) (code_content : text) : Z * Calculator :=
  match ast_parse code_content with
  | Returns tree =>
      let self := {| complexity := 1 |} in (* Base complexity *)
      match visit_python_node frames self tree with
      | Done self => (complexity self, self)
      | Overflow self => (0%Z, self)
      end
  | Raises _ => (0%Z, self)
  end.

Definition calculate_complexity (self : Calculator) (file_path code_content : text)
  : Z * Calculator :=
  let ext := snd (splitext (lower file_path)) in
  if text_eqb ext (T ".py") then analyze_python self code_content
  else if In_b ext [T ".java"] then (analyze_java code_content, self)
  else if In_b ext [T ".js"; T ".jsx"; T ".ts"; T ".tsx"] then
    (analyze_javascript code_content, self)
  else if In_b ext [T ".c"; T ".cpp"; T ".cc"; T ".cxx"; T ".h"; T ".hpp"] then
    (analyze_c_cpp code_content, self)
  else if text_eqb ext (T ".go") then (analyze_go code_content, self)
  else if In_b ext [T ".cs"] then (analyze_csharp code_content, self)
  else if In_b ext [T ".php"] then (analyze_php code_content, self)
  else if In_b ext [T ".rb"] then (analyze_ruby code_content, self)
  else (analyze_generic code_content, self).

End PythonPath.

End Limited.

(** ** The statements of the specification, as definitions *)

(** Pre-order traversal of a syntax tree. *)
Fixpoint walk (n : node) {struct n} : list node :=
  match n with
  | Node _ fs => n :: flat_map (fun field => flat_map walk (snd field)) fs
  end.

Definition zsum (l : list Z) : Z := fold_right Z.add 0%Z l.

(** Contribution of one node, in the words of the specification: function
    and lambda definitions, conditionals and loops with the asynchronous loop
    form, exception-handling blocks and handler clauses, short-circuit
    boolean expressions, inline conditionals, filter clauses of
    comprehensions and generators. *)
Definition spec_weight (n : node) : Z :=
  if isinstance n ["FunctionDef"; "AsyncFunctionDef"; "Lambda"]%string then 1
  else if isinstance n ["If"; "While"; "For"; "AsyncFor"]%string then 1
  else if isinstance n ["Try"; "TryStar"; "ExceptHandler"]%string then 1
  else if isinstance n ["BoolOp"]%string then Z.of_nat (length (attr n "values")) - 1
  else if isinstance n ["IfExp"]%string then 1
  else if isinstance n ["ListComp"; "DictComp"; "SetComp"; "GeneratorExp"]%string then
    zsum (map (fun generator => Z.of_nat (length (attr generator "ifs")))
              (attr n "generators"))
  else 0.

Definition spec_ast_complexity (tree : node) : Z :=
  (1 + zsum (map spec_weight (walk tree)))%Z.

(** Function definitions that [visit_python_node] does not recognise. *)
Definition unrecognised (n : node) : bool :=
  isinstance n ["AsyncFunctionDef"; "TryStar"]%string.

(** Occurrences of one keyword, in the words of the specification: the
    operators as literal symbols, any other keyword as a whole word. *)
Definition m_literal (symbol : text) (prev : option ascii) (s : text) : option nat :=
  if starts_with_ci symbol s then Some (length symbol) else None.

Definition is_operator (keyword : text) : bool :=
  In_b keyword [T "&&"; T "||"; T "?"; T "=>"].

Definition spec_occurrences (keyword : text) (cleaned_code : text) : list text :=
  if is_operator keyword
  then re_findall (m_literal keyword) None 0 cleaned_code
  else re_findall (m_pattern (Word keyword)) None 0 cleaned_code.

Definition spec_heuristic_complexity (code_content : text) (keywords : list text) : Z :=
  let cleaned_code := remove_comments_and_strings code_content in
  Z.max 1 (1 + zsum (map (fun keyword =>
                            Z.of_nat (length (spec_occurrences keyword cleaned_code)))
                         keywords)).

(** The rule set the dispatch selects, [None] for the syntax-tree path. *)
Definition rule_set (ext : text) : option (list text) :=
  if text_eqb ext (T ".py") then None
  else if In_b ext [T ".java"] then Some java_keywords
  else if In_b ext [T ".js"; T ".jsx"; T ".ts"; T ".tsx"] then Some javascript_keywords
  else if In_b ext [T ".c"; T ".cpp"; T ".cc"; T ".cxx"; T ".h"; T ".hpp"] then
    Some c_cpp_keywords
  else if text_eqb ext (T ".go") then Some go_keywords
  else if In_b ext [T ".cs"] then Some csharp_keywords
  else if In_b ext [T ".php"] then Some php_keywords
  else if In_b ext [T ".rb"] then Some ruby_keywords
  else Some generic_keywords.

Definition extension (file_path : text) : text := snd (splitext (lower file_path)).


(** The classes of the [ast] module that stand for a control-flow
    construct: function definitions, compound statements, jumps, and the
    expressions that branch or loop. *)
Definition control_flow_classes : list string :=
  ["FunctionDef"; "AsyncFunctionDef"; "Lambda";
   "If"; "While"; "For"; "AsyncFor"; "With"; "AsyncWith"; "Match"; "match_case";
   "Try"; "TryStar"; "ExceptHandler";
   "Return"; "Raise"; "Break"; "Continue"; "Assert"; "Await"; "Yield"; "YieldFrom";
   "BoolOp"; "IfExp"; "ListComp"; "SetComp"; "DictComp"; "GeneratorExp";
   "comprehension"]%string.

(** A syntax tree with no control-flow construct. *)
Definition control_flow_free (tree : node) : bool :=
  forallb (fun n => negb (isinstance n control_flow_classes)) (walk tree).

(** ** Sample outcomes of [ast.parse] (CPython 3.11) *)

Definition Leaf (c : string) : node := Node c [].

Definition Name_load : node :=
  Node "Name" [("id", []); ("ctx", [Leaf "Load"])]%string.

Definition arguments (args : list node) : node :=
  Node "arguments"
       [("posonlyargs", []); ("args", args); ("vararg", []); ("kwonlyargs", []);
        ("kw_defaults", []); ("kwarg", []); ("defaults", [])]%string.

Definition Module (body : list node) : node :=
  Node "Module" [("body", body); ("type_ignores", [])]%string.

Definition def_like (c : string) (args body : list node) : node :=
  Node c [("name", []); ("args", [arguments args]); ("body", body);
          ("decorator_list", []); ("returns", []); ("type_comment", [])]%string.

(** [ast.parse("")] *)
Definition empty_module : node := Module [].

(** [ast.parse("pass")] *)
Definition pass_module : node := Module [Leaf "Pass"].

(** [ast.parse("async def f(): pass")] *)
Definition async_def_module : node :=
  Module [def_like "AsyncFunctionDef" [] [Leaf "Pass"]].

(** [ast.parse("def f(x):\n    if x:\n        pass\n    while x:\n        pass\n")] *)
Definition if_while_source : text :=
  T "def f(x):" ++ [newline] ++ T "    if x:" ++ [newline] ++ T "        pass" ++ [newline]
  ++ T "    while x:" ++ [newline] ++ T "        pass" ++ [newline].

Definition if_while_module : node :=
  Module
    [def_like "FunctionDef"
       [Node "arg" [("arg", []); ("annotation", []); ("type_comment", [])]%string]
       [Node "If" [("test", [Name_load]); ("body", [Leaf "Pass"]); ("orelse", [])]%string;
        Node "While" [("test", [Name_load]); ("body", [Leaf "Pass"]); ("orelse", [])]%string]].

(** [ast.parse] on the texts above, and on an unbalanced parenthesis, which
    is a syntax error.  A stand-in for the parser in examples: it knows no
    other text. *)
Definition sample_parse (source : text) : outcome node :=
  if text_eqb source [] then Returns empty_module
  else if text_eqb source (T "pass") then Returns pass_module
  else if text_eqb source (T "async def f(): pass") then Returns async_def_module
  else if text_eqb source if_while_source then Returns if_while_module
  else Raises "SyntaxError".

Definition fresh : Calculator := {| complexity := 0 |}.

(** The calculator after a sequence of earlier calls, each a file path and
    a source text. *)
Definition after_calls (ast_parse : text -> outcome node)
           (history : list (text * text)) (self : Calculator) : Calculator :=
  fold_left (fun self call => snd (calculate_complexity ast_parse self (fst call) (snd call)))
            history self.

(** ** Vocabulary of the stripping proofs *)

(** The two characters [a], [b] occur next to each other in the text. *)
Fixpoint has_pair (a b : ascii) (s : text) : bool :=
  match s with
  | c :: r =>
      match r with
      | d :: _ => (Ascii.eqb c a && Ascii.eqb d b) || has_pair a b r
      | [] => false
      end
  | [] => false
  end.

(** The pattern matches at no position of the text. *)
Definition unmatched (m : text -> option nat) (s : text) : Prop :=
  forall k, m (skipn k s) = None.

(** The text is left as it is by the replacement of the literals quoted
    with [q]. *)
Definition quote_fixed (q : ascii) (s : text) : Prop :=
  re_sub (m_quoted q) [q; q] 0 s = s.

(** ** Texts without keywords *)

(** The keyword occurs in the text, be it inside a longer word, as the
    [re] module compares characters under [re.IGNORECASE]. *)
Fixpoint occurs (keyword s : text) : bool :=
  starts_with_ci keyword s
  || match s with
     | [] => false
     | _ :: r => occurs keyword r
     end.

(** A text that holds none of the keywords and operators of a rule set,
    anywhere, and opens no block comment. *)
Definition keyword_free (keywords : list text) (code_content : text) : bool :=
  forallb (fun keyword => negb (occurs keyword code_content)) keywords
  && negb (has_pair slash star code_content).

(** ** Texts made of complete comments and literals *)

(** The three quote characters, in the order in which the literals that
    they delimit are replaced. *)
Definition quotes : list ascii := [dquote; squote; backtick].

(** A literal: its content between two quotes [q]. *)
Definition literal (q : ascii) (content : text) : text := q :: content ++ [q].

Definition holds (c : ascii) (s : text) : bool := existsb (Ascii.eqb c) s.

(** The quote characters of the literals that are replaced before those
    quoted with [q]. *)
Definition earlier_quotes (q : ascii) : list ascii :=
  if Ascii.eqb q squote then [dquote]
  else if Ascii.eqb q backtick then [dquote; squote]
  else [].

(** The content of a literal quoted with [q], as the stripping takes it: no
    [q], which would end the literal, nothing that an earlier pass takes
    for the start of a comment or for the quote of another literal. *)
Definition literal_content (q : ascii) (content : text) : bool :=
  negb (holds q content)
  && negb (holds hash content)
  && negb (has_pair slash slash content)
  && negb (has_pair slash star content)
  && forallb (fun e => negb (holds e content)) (earlier_quotes q).

(** The content of a block comment: no end of comment, and nothing that
    an earlier pass takes for the start of a line comment. *)
Definition block_content (content : text) : bool :=
  negb (has_pair star slash content)
  && negb (holds hash content)
  && negb (has_pair slash slash content).

(** A character that starts no comment and no literal. *)
Definition ordinary (c : ascii) : bool :=
  negb (holds c [slash; hash; dquote; squote; backtick]).

(** A text made of complete comments and literals, with ordinary
    characters and single slashes between them: line comments run to the
    line feed that ends them, block comments to their [*/], literals to
    their closing quote. *)
Inductive lexed : text -> Prop :=
| lexed_nil : lexed []
| lexed_char c p :
    ordinary c = true -> lexed p -> lexed (c :: p)
| lexed_slash p :
    hd_error p <> Some slash -> hd_error p <> Some star -> lexed p ->
    lexed (slash :: p)
| lexed_line_comment comment p :
    ~ In newline comment -> lexed p ->
    lexed (slash :: slash :: comment ++ newline :: p)
| lexed_hash_comment comment p :
    ~ In newline comment -> lexed p ->
    lexed (hash :: comment ++ newline :: p)
| lexed_block_comment content p :
    block_content content = true -> hd_error p <> Some slash -> lexed p ->
    lexed (slash :: star :: content ++ star :: slash :: p)
| lexed_literal q content p :
    In q quotes -> literal_content q content = true -> lexed p ->
    lexed (literal q content ++ p).

(** The characters [a], [b] stand next to each other in the keyword, as
    the [re] module compares characters under [re.IGNORECASE]. *)
Definition adjacent (a b : ascii) (keyword : text) : bool :=
  has_pair (py_lower a) (py_lower b) (lower keyword).

(** A literal put between [prefix] and [rest] stands apart from the words
    and operators around it: the prefix does not end in a slash, the rest
    starts no comment, and the character before the literal and the one
    after it are not two characters of a word, nor two characters that a
    keyword or an operator of the rule set holds next to each other. *)
Definition separated (keywords : list text) (prefix rest : text) : bool :=
  negb (Ascii.eqb (last prefix newline) slash)
  && negb (holds (hd newline rest) [slash; hash])
  && match prefix, rest with
     | _ :: _, b :: _ =>
         let a := last prefix newline in
         negb (is_word a && is_word b)
         && forallb (fun keyword => negb (adjacent a b keyword)) keywords
     | _, _ => true
     end.

(** The rule sets of the eight heuristic analyses. *)
Definition rule_sets : list (list text) :=
  [java_keywords; javascript_keywords; c_cpp_keywords; go_keywords;
   csharp_keywords; php_keywords; ruby_keywords; generic_keywords].

(** The passes of [remove_comments_and_strings], one by one. *)
Definition strip_slashes (s : text) : text := re_sub (m_line [slash; slash]) [] 0 s.
Definition strip_hashes (s : text) : text := re_sub (m_line [hash]) [] 0 s.
Definition strip_blocks (s : text) : text := re_sub m_block [] 0 s.
Definition strip_quoted (q : ascii) (s : text) : text := re_sub (m_quoted q) [q; q] 0 s.

(** The literals that a pattern looks for. *)
Definition literals (p : pattern) : list text :=
  match p with
  | AndOr => [T "&&"; T "||"]
  | Question => [T "?"]
  | Arrow => [T "=>"]
  | Word keyword => [keyword]
  end.

(** A keyword as the rule sets have them: an operator, or a word that
    starts and ends with a word character and holds no quote. *)
Definition tame (keyword : text) : bool :=
  is_operator keyword
  || (negb (text_eqb keyword [])
      && is_word (hd newline keyword) && is_word (last keyword newline)
      && forallb (fun y => forallb (fun q => negb (Ascii.eqb (py_lower y) (py_lower q)))
                                   quotes) keyword).

(** The last character of a text, if it has one. *)
Definition before (x : text) : option ascii :=
  match x with
  | [] => None
  | _ :: _ => Some (last x newline)
  end.

(** ** The rest of the module: commands, file choice, result *)

(** What the module asks of the host: [os.path.exists], [os.path.isfile],
    [os.access(_, os.X_OK)], [platform.system()], the text that
    [open(...).read()] returns or the error it raises, and the limit
    [sys.get_int_max_str_digits()] of the interpreter (0 when it has none). *)
Record Host : Type := {
  path_exists : text -> bool;
  path_isfile : text -> bool;
  access_x_ok : text -> bool;
  platform_system : string;
  read_text : text -> outcome text;
  int_max_str_digits : nat
}.

(** [f'"{s}"'] *)
Definition quoted (s : text) : text := dquote :: s ++ [dquote].

(** [d.get(key)] for a dict written with distinct keys. *)
Fixpoint dict_get (d : list (text * text)) (key : text) : option text :=
  match d with
  | [] => None
  | (k, v) :: rest => if text_eqb k key then Some v else dict_get rest key
  end.

Definition commands (python_cmd filename name : text) : list (text * text) :=
  [ (T ".py", python_cmd ++ T " " ++ quoted filename);
    (T ".js", T "node " ++ quoted filename);
    (T ".jsx", T "node " ++ quoted filename);
    (T ".ts", T "npx ts-node " ++ quoted filename);
    (T ".tsx", T "npx ts-node " ++ quoted filename);
    (T ".java", T "javac " ++ quoted filename ++ T " && java " ++ quoted name);
    (T ".jar", T "java -jar " ++ quoted filename);
    (T ".c", T "gcc " ++ quoted filename ++ T " -o " ++ quoted name
             ++ T " && ./" ++ quoted name);
    (T ".cpp", T "g++ " ++ quoted filename ++ T " -o " ++ quoted name
               ++ T " && ./" ++ quoted name);
    (T ".cc", T "g++ " ++ quoted filename ++ T " -o " ++ quoted name
              ++ T " && ./" ++ quoted name);
    (T ".cxx", T "g++ " ++ quoted filename ++ T " -o " ++ quoted name
               ++ T " && ./" ++ quoted name);
    (T ".go", T "go run " ++ quoted filename);
    (T ".rs", T "rustc " ++ quoted filename ++ T " && ./" ++ quoted name);
    (T ".cs", T "dotnet run " ++ quoted filename);
    (T ".php", T "php " ++ quoted filename);
    (T ".rb", T "ruby " ++ quoted filename);
    (T ".pl", T "perl " ++ quoted filename);
    (T ".exe", quoted filename);
    (T ".sh", T "bash " ++ quoted filename);
    (T ".bat", quoted filename) ].

Definition get_file_command (host : Host) (filename : text) : option text :=
  if negb (path_exists host filename) then None
  else
    let (name, ext) := splitext (lower filename) in
    (* Use python3 on macOS/Linux, python on Windows *)
    let python_cmd :=
      if existsb (String.eqb (platform_system host)) ["Darwin"; "Linux"]%string
      then T "python3" else T "python" in
    (* For executable files without extension *)
    if text_eqb ext [] && access_x_ok host filename then Some (quoted filename)
    else dict_get (commands python_cmd filename name) ext.

(** An [int] or a [str]. *)
Inductive value : Type :=
| Int (n : Z)
| Str (s : text).

Definition calculate_cyclomatic_complexity
           (host : Host) (ast_parse : text -> outcome node) (source_file : option text)
  : value :=
  match source_file with
  | None => Str (T "N/A")
  | Some file =>
      if text_eqb file [] || negb (path_exists host file) then Str (T "N/A")
      else
        match read_text host file with
        | Returns code_content =>
            let calculator := fresh in
            Int (fst (calculate_complexity ast_parse calculator file code_content))
        | Raises e => Str (T "Error: " ++ T e)
        end
  end.

(** [str(n)] for a natural number: its decimal digits. *)
Definition digit_char (d : nat) : ascii := ascii_of_nat (48 + d).

Fixpoint str_digits (fuel n : nat) (acc : text) : text :=
  match fuel with
  | O => acc
  | S fuel' =>
      let acc' := digit_char (n mod 10) :: acc in
      if n <? 10 then acc' else str_digits fuel' (n / 10) acc'
  end.

Definition str (n : nat) : text := str_digits (S n) n [].

(** [str.isspace] on one character. *)
Definition is_space (c : ascii) : bool :=
  in_range 9 13 c || in_range 28 32 c || (code c =? 133)%N || (code c =? 160)%N.

Fixpoint lstrip (s : text) : text :=
  match s with
  | c :: r => if is_space c then lstrip r else s
  | [] => []
  end.

(** [s.strip()] *)
Definition strip (s : text) : text := rev (lstrip (rev (lstrip s))).

(** [str.isdigit]: the decimal digits and the superscripts 1, 2, 3. *)
Definition is_digit (c : ascii) : bool :=
  in_range 48 57 c || in_range 178 179 c || (code c =? 185)%N.

Definition isdigit (s : text) : bool :=
  match s with
  | [] => false
  | _ :: _ => forallb is_digit s
  end.

(** [int(s)] on a text that [isdigit] accepts (no sign, blank or
    underscore): a [ValueError] unless every character is a decimal digit
    and the text is within the limit of the interpreter. *)
Definition int (limit : nat) (s : text) : outcome Z :=
  if forallb (in_range 48 57) s && ((limit =? 0) || (length s <=? limit))
  then Returns (fold_left (fun n c => 10 * n + (Z.of_N (code c) - 48))%Z s 0%Z)
  else Raises "ValueError".

(** [list_files_in_directory], given [os.listdir('.')]: the files, and the
    lines printed. *)
Fixpoint list_files_from (host : Host) (i : nat) (items files printed : list text)
  : list text * list text :=
  match items with
  | [] => (files, printed)
  | item :: rest =>
      if path_isfile host item
      then list_files_from host (S i) rest (files ++ [item])
                           (printed ++ [str i ++ T ". " ++ item])
      else list_files_from host (S i) rest files printed
  end.

Definition list_files_in_directory (host : Host) (listing : list text)
  : list text * list text :=
  list_files_from host 1 listing []
                  [newline :: T "=== Files in current directory ==="].

(** One pass of the loop of [main] that asks for a file, given the line
    that [input] returned: the loop is left with the selected file, or a
    message is printed and it goes on.  A pass in which [input] itself
    raises is not modelled. *)
Inductive pass : Type :=
| Break (selected_file : text)
| Again (printed : text).

Definition ask_file (host : Host) (files : list text) (typed : text) : pass :=
  let selection := strip typed in
  if isdigit selection then
    match int (int_max_str_digits host) selection with
    | Returns n =>
        let file_index := (n - 1)%Z in
        if (0 <=? file_index)%Z && (file_index <? Z.of_nat (length files))%Z
        then Break (nth (Z.to_nat file_index) files [])
        else Again (T "Please enter a number between 1 and " ++ str (length files))
    | Raises _ => Again (T "Please enter a valid number or filename")
    end
  else if In_b selection files then Break selection
  else Again (T "File '" ++ selection ++ T "' not found in directory").

(** The score of a syntax tree: what [analyze_python] returns once the text
    has parsed. *)
Definition tree_complexity (tree : node) : Z :=
  complexity (visit_python_node {| complexity := 1 |} tree).

(** A host for the examples: four files, of which [run] is executable
    and two cannot be read, and the directory [src]. *)
Definition sample_host : Host := {|
  path_exists := fun f => In_b f [T "Main.java"; T "tool.py"; T "run"; T "notes.txt"; T "src"];
  path_isfile := fun f => In_b f [T "Main.java"; T "tool.py"; T "run"; T "notes.txt"];
  access_x_ok := fun f => In_b f [T "run"; T "src"];
  platform_system := "Linux";
  read_text := fun f =>
    if text_eqb f (T "tool.py") then Returns if_while_source
    else if text_eqb f (T "Main.java") then Returns (T "class Main { }")
    else Raises "[Errno 13] Permission denied";
  int_max_str_digits := 4300
|}.

(** * Properties *)

(** ** The syntax-tree path *)

Lemma node_induction (P : node -> Prop) :
  (forall c fs, Forall (fun field => Forall P (snd field)) fs -> P (Node c fs)) ->
  forall n, P n.
Proof.
  intros H. fix IH 1. intros [c fs]. apply H.
  induction fs as [|[name l] fs IHfs]; constructor; [|exact IHfs].
  simpl. induction l as [|x l IHl]; constructor; [apply IH | exact IHl].
Qed.

(** What the [if]/[elif] chain adds at one node. *)
Lemma visit_own_add self n :
  visit_own self n = add_complexity self (complexity (visit_own fresh n)).
Proof.
  assert (G : forall gens a,
             fold_left
               (fun self generator =>
                  match attr generator "ifs" with
                  | [] => self
                  | ifs => add_complexity self (Z.of_nat (length ifs))
                  end) gens a
             = add_complexity a
                 (zsum (map (fun g => Z.of_nat (length (attr g "ifs"))) gens))).
  { induction gens as [|g gens IH]; intros [a]; simpl.
    - unfold add_complexity; cbn [complexity]. f_equal. lia.
    - rewrite IH. cbn [map zsum fold_right].
      destruct (attr g "ifs"); unfold add_complexity; cbn [complexity length];
        f_equal; lia. }
  unfold visit_own.
  repeat match goal with
         | |- context [if ?b then _ else _] => destruct b
         end;
    rewrite ?G; destruct self as [a]; unfold add_complexity, fresh;
    cbn [complexity]; f_equal; lia.
Qed.

(** The recursive calls go through [ast.iter_child_nodes(node)]. *)
Lemma visit_python_node_children self n :
  visit_python_node self n
  = fold_left visit_python_node (iter_child_nodes n) (visit_own self n).
Proof.
  destruct n as [c fs]. simpl. unfold iter_child_nodes. simpl.
  generalize (visit_own self (Node c fs)). clear self.
  induction fs as [|f fs IH]; intros a; simpl; [reflexivity|].
  rewrite fold_left_app. apply IH.
Qed.

Lemma walk_children n :
  walk n = n :: flat_map walk (iter_child_nodes n).
Proof.
  destruct n as [c fs]. simpl. f_equal. unfold iter_child_nodes. simpl.
  induction fs as [|f fs IH]; simpl; [reflexivity|].
  rewrite flat_map_app. f_equal. exact IH.
Qed.

Lemma zsum_app l1 l2 : zsum (l1 ++ l2) = (zsum l1 + zsum l2)%Z.
Proof. induction l1; simpl; lia. Qed.

(** The walk adds, to the counter it is given, what the chain adds at each
    node of the tree. *)
Lemma visit_python_node_total n :
  forall self,
    complexity (visit_python_node self n)
    = (complexity self
       + zsum (map (fun x => complexity (visit_own fresh x)) (walk n)))%Z.
Proof.
  induction n as [c fs IH] using node_induction. intros self.
  rewrite visit_python_node_children, walk_children.
  unfold iter_child_nodes. simpl fields.
  rewrite (visit_own_add self). simpl map. simpl zsum.
  generalize (complexity (visit_own fresh (Node c fs))). intros w.
  assert (E : forall l a,
             Forall (fun n => forall self,
                         complexity (visit_python_node self n)
                         = (complexity self
                            + zsum (map (fun x => complexity (visit_own fresh x))
                                        (walk n)))%Z) l ->
             complexity (fold_left visit_python_node l a)
             = (complexity a
                + zsum (map (fun x => complexity (visit_own fresh x))
                            (flat_map walk l)))%Z).
  { induction l as [|x l IHl]; intros a Hl; simpl; [lia|].
    inversion Hl; subst. rewrite IHl by assumption.
    rewrite map_app, zsum_app. rewrite H1. lia. }
  rewrite E.
  - unfold add_complexity. simpl. lia.
  - clear -IH. induction fs as [|f fs IHfs]; simpl; [constructor|].
    inversion IH; subst. apply Forall_app. split; auto.
Qed.

Ltac by_class c :=
  repeat match goal with
         | |- context [String.eqb c ?s] =>
             destruct (String.eqb_spec c s); [subst c; simpl String.eqb in *|]
         end;
  cbn [orb] in *; try discriminate.

(** On every class but [AsyncFunctionDef] and [TryStar] the chain adds the
    contribution that the specification names. *)
Lemma visit_own_spec_weight n :
  unrecognised n = false ->
  complexity (visit_own fresh n) = spec_weight n.
Proof.
  assert (G : forall gens a,
             complexity
               (fold_left
                  (fun self generator =>
                     match attr generator "ifs" with
                     | [] => self
                     | ifs => add_complexity self (Z.of_nat (length ifs))
                     end) gens a)
             = (complexity a
                + zsum (map (fun g => Z.of_nat (length (attr g "ifs"))) gens))%Z).
  { unfold zsum.
    induction gens as [|g gens IH]; intros a; cbn [fold_left map fold_right]; [lia|].
    rewrite IH. destruct (attr g "ifs"); cbn [complexity add_complexity length]; lia. }
  destruct n as [c fs].
  unfold unrecognised, visit_own, spec_weight, isinstance, cls, existsb.
  intros U. by_class c; rewrite ?G; cbn [complexity fresh add_complexity]; lia.
Qed.

Lemma zsum_map_ext (A : Type) (f g : A -> Z) l :
  Forall (fun x => f x = g x) l -> zsum (map f l) = zsum (map g l).
Proof. induction 1; simpl; congruence. Qed.

Section PythonPathFacts.

Variable ast_parse : text -> outcome node.

(** On a text that parses, the syntax-tree path returns the base plus the
    sum of what the chain adds at each node. *)
Lemma analyze_python_total self code_content tree :
  ast_parse code_content = Returns tree ->
  fst (analyze_python ast_parse self code_content)
  = (1 + zsum (map (fun x => complexity (visit_own fresh x)) (walk tree)))%Z.
Proof.
  intros E. unfold analyze_python. rewrite E. cbn [fst].
  rewrite visit_python_node_total. reflexivity.
Qed.

(** It agrees with the specification on every tree that has no
    asynchronous function definition and no [try]/[except*] block. *)
Lemma analyze_python_spec self code_content tree :
  ast_parse code_content = Returns tree ->
  forallb (fun n => negb (unrecognised n)) (walk tree) = true ->
  fst (analyze_python ast_parse self code_content) = spec_ast_complexity tree.
Proof.
  intros E U. rewrite (analyze_python_total self E).
  unfold spec_ast_complexity. f_equal. apply zsum_map_ext.
  rewrite forallb_forall in U. apply Forall_forall. intros x Hx.
  apply visit_own_spec_weight. specialize (U x Hx).
  now destruct (unrecognised x).
Qed.

End PythonPathFacts.

(** A function whose body holds one [if] and one [while] scores
    1 (base) + 1 (function) + 1 (if) + 1 (while). *)
Example if_while_scores_4 :
  fst (analyze_python sample_parse fresh if_while_source) = 4%Z
  /\ spec_ast_complexity if_while_module = 4%Z.
Proof. split; vm_compute; reflexivity. Qed.

(** C1.  The syntax-tree path does not give every function definition its
    point: on [async def f(): pass], which parses to a module holding one
    [AsyncFunctionDef], it returns the base complexity 1, where the
    specification (1 for each function definition) gives 2. *)
Theorem C1_async_def_not_counted :
  sample_parse (T "async def f(): pass") = Returns async_def_module
  /\ fst (analyze_python sample_parse fresh (T "async def f(): pass")) = 1%Z
  /\ spec_ast_complexity async_def_module = 2%Z.
Proof. repeat split; vm_compute; reflexivity. Qed.

(** ** Dispatch *)

Lemma text_eqb_eq a b : text_eqb a b = true <-> a = b.
Proof. unfold text_eqb. destruct (list_eq_dec ascii_dec a b); split; congruence. Qed.

Section DispatchFacts.

Variable ast_parse : text -> outcome node.

(** The dispatch selects the syntax-tree path for [.py] and a rule set for
    any other extension. *)
Lemma calculate_complexity_dispatch self file_path code_content :
  calculate_complexity ast_parse self file_path code_content
  = match rule_set (extension file_path) with
    | None => analyze_python ast_parse self code_content
    | Some keywords => (count_complexity_keywords code_content keywords, self)
    end.
Proof.
  unfold calculate_complexity, rule_set, extension.
  repeat match goal with
         | |- context [if ?b then _ else _] => destruct b
         end; reflexivity.
Qed.


Lemma analyze_python_fresh self code_content :
  fst (analyze_python ast_parse self code_content)
  = fst (analyze_python ast_parse fresh code_content).
Proof. unfold analyze_python. destruct (ast_parse code_content); reflexivity. Qed.

(** C9.  The integer that [calculate_complexity] returns depends on the
    extension of the file path and on the source text only: not on the
    value of the [complexity] field before the call, nor on the calls made
    earlier on the same calculator. *)
Theorem C9_calculate_complexity_pure
        self1 self2 history1 history2 file_path1 file_path2 code_content :
  extension file_path1 = extension file_path2 ->
  fst (calculate_complexity ast_parse (after_calls ast_parse history1 self1)
                            file_path1 code_content)
  = fst (calculate_complexity ast_parse (after_calls ast_parse history2 self2)
                              file_path2 code_content).
Proof.
  intros E. rewrite !calculate_complexity_dispatch, E.
  destruct (rule_set (extension file_path2)); [reflexivity|].
  rewrite analyze_python_fresh. symmetry. apply analyze_python_fresh.
Qed.

(** C7.  On a text that does not parse, whatever [ast.parse] raises, the
    syntax-tree path returns 0, and so does the dispatch on a [.py] path;
    nothing is raised and the calculator is left as it was. *)
Theorem C7_parse_failure_returns_0 self code_content exception :
  ast_parse code_content = Raises exception ->
  analyze_python ast_parse self code_content = (0%Z, self)
  /\ forall file_path,
      extension file_path = T ".py" ->
      calculate_complexity ast_parse self file_path code_content = (0%Z, self).
Proof.
  intros E.
  assert (A : analyze_python ast_parse self code_content = (0%Z, self))
    by (unfold analyze_python; rewrite E; reflexivity).
  split; [exact A|]. intros file_path P.
  rewrite calculate_complexity_dispatch, P. exact A.
Qed.

End DispatchFacts.

Lemma C9_witness :
  extension (T "a.py") = extension (T "dir/B.PY")
  /\ fst (calculate_complexity sample_parse
            (after_calls sample_parse [(T "x.py", T "pass")] fresh)
            (T "a.py") if_while_source)
     = fst (calculate_complexity sample_parse
              (after_calls sample_parse [] {| complexity := 7 |})
              (T "dir/B.PY") if_while_source).
Proof.
  split; [reflexivity|].
  apply (@C9_calculate_complexity_pure sample_parse). reflexivity.
Defined.

Lemma C7_witness :
  sample_parse (T "(") = Raises "SyntaxError"
  /\ analyze_python sample_parse fresh (T "(") = (0%Z, fresh)
  /\ forall file_path,
      extension file_path = T ".py" ->
      calculate_complexity sample_parse fresh file_path (T "(") = (0%Z, fresh).
Proof.
  split; [reflexivity|].
  apply (@C7_parse_failure_returns_0 sample_parse fresh (T "(") "SyntaxError").
  reflexivity.
Defined.

(** ** The heuristic path *)

Lemma fold_left_count (f : text -> Z) keywords acc :
  fold_left (fun complexity keyword => (complexity + f keyword)%Z) keywords acc
  = (acc + zsum (map f keywords))%Z.
Proof.
  revert acc. induction keywords as [|k ks IH]; intros acc; simpl; [lia|].
  rewrite IH. lia.
Qed.

Lemma zsum_nonneg l : Forall (fun x => 0 <= x)%Z l -> (0 <= zsum l)%Z.
Proof. induction 1; simpl; lia. Qed.

(** The heuristic score is the base plus, for each keyword of the rule set,
    the number of matches of the pattern built for it. *)
Lemma count_complexity_keywords_total code_content keywords :
  count_complexity_keywords code_content keywords
  = (1 + zsum (map (fun keyword =>
                      Z.of_nat (length (matches keyword
                                          (remove_comments_and_strings code_content))))
                   keywords))%Z.
Proof.
  unfold count_complexity_keywords. cbv zeta. rewrite fold_left_count.
  apply Z.max_l.
  assert (0 <= zsum (map (fun keyword =>
                      Z.of_nat (length (matches keyword
                                          (remove_comments_and_strings code_content))))
                   keywords))%Z; [|lia].
  apply zsum_nonneg, Forall_forall. intros x Hx.
  apply in_map_iff in Hx. destruct Hx as [k [<- _]]. lia.
Qed.


(** C2.  The heuristic score is not the base plus the occurrences of each
    keyword: the pattern built for [&&] and the one built for [||] both match
    either operator, and every rule set holds both keywords, so that one
    occurrence of an operator is counted twice.  On [a && b] the Java rule
    set returns 3, where the specification gives 1 + 1. *)
Theorem C2_and_or_counted_twice :
  fst (calculate_complexity sample_parse fresh (T "A.java") (T "a && b")) = 3%Z
  /\ count_complexity_keywords (T "a && b") java_keywords = 3%Z
  /\ matches (T "&&") (T "a && b") = [T "&&"]
  /\ matches (T "||") (T "a && b") = [T "&&"]
  /\ spec_heuristic_complexity (T "a && b") java_keywords = 2%Z.
Proof. repeat split; vm_compute; reflexivity. Qed.

Lemma rule_sets_empty_text keywords :
  In keywords [java_keywords; javascript_keywords; c_cpp_keywords; go_keywords;
               csharp_keywords; php_keywords; ruby_keywords; generic_keywords] ->
  count_complexity_keywords [] keywords = 1%Z.
Proof.
  simpl. intros H.
  repeat (destruct H as [<-|H]; [vm_compute; reflexivity|]). contradiction.
Qed.

Lemma rule_set_cases ext keywords :
  rule_set ext = Some keywords ->
  In keywords [java_keywords; javascript_keywords; c_cpp_keywords; go_keywords;
               csharp_keywords; php_keywords; ruby_keywords; generic_keywords].
Proof.
  unfold rule_set.
  repeat match goal with
         | |- context [if ?b then _ else _] => destruct b
         end; intros E; inversion E; simpl; tauto.
Qed.

(** C10.  Given that the empty text parses to the empty module, the empty
    source text scores exactly 1 under every file path: the base complexity
    on the syntax-tree path, no occurrence of any keyword on the heuristic
    path, whatever the extension. *)
Theorem C10_empty_text_scores_1 (ast_parse : text -> outcome node) self file_path :
  ast_parse [] = Returns empty_module ->
  fst (calculate_complexity ast_parse self file_path []) = 1%Z.
Proof.
  intros E. rewrite calculate_complexity_dispatch.
  destruct (rule_set (extension file_path)) as [keywords|] eqn:R.
  - cbn [fst]. apply rule_sets_empty_text. eapply rule_set_cases; eassumption.
  - unfold analyze_python. rewrite E. reflexivity.
Qed.

Lemma C10_witness :
  sample_parse [] = Returns empty_module
  /\ fst (calculate_complexity sample_parse fresh (T "main.py") []) = 1%Z
  /\ fst (calculate_complexity sample_parse fresh (T "Main.java") []) = 1%Z
  /\ fst (calculate_complexity sample_parse fresh (T "notes.txt") []) = 1%Z.
Proof.
  split; [reflexivity|].
  split; [|split]; apply (@C10_empty_text_scores_1 sample_parse); reflexivity.
Defined.

(** ** Lower bound *)



Lemma tree_complexity_total tree :
  tree_complexity tree
  = (1 + zsum (map (fun x => complexity (visit_own fresh x)) (walk tree)))%Z.
Proof. unfold tree_complexity. rewrite visit_python_node_total. reflexivity. Qed.




(** *** The recursion limit *)

Lemma height_children n :
  height n = S (list_max (map height (iter_child_nodes n))).
Proof.
  destruct n as [c fs]. cbn [height]. f_equal. unfold iter_child_nodes. cbn [fields].
  induction fs as [|f fs IH]; [reflexivity|].
  cbn [map concat list_max fold_right]. rewrite map_app, list_max_app.
  fold (list_max (map (fun field => list_max (map height (snd field))) fs)).
  now rewrite IH.
Qed.

Lemma height_child n child :
  In child (iter_child_nodes n) -> height child < height n.
Proof.
  intros I. rewrite (height_children n).
  assert (F : Forall (fun k => k <= list_max (map height (iter_child_nodes n)))
                     (map height (iter_child_nodes n)))
    by (apply list_max_le; lia).
  rewrite Forall_forall in F. specialize (F (height child) (in_map height _ _ I)). lia.
Qed.

Lemma for_each_done visit g l :
  forall self,
    (forall child s, In child l -> visit s child = Limited.Done (g s child)) ->
    Limited.for_each visit self l = Limited.Done (fold_left g l self).
Proof.
  induction l as [|c l IH]; intros self H; [reflexivity|].
  cbn [Limited.for_each fold_left]. rewrite H by now left.
  apply IH. intros child s I. apply H. now right.
Qed.


(** With frames enough for its height and the two generators, the walk
    returns what the walk without a limit computes. *)
Lemma visit_within_limit frames :
  forall n self,
    height n + 2 <= frames ->
    Limited.visit_python_node frames self n = Limited.Done (visit_python_node self n).
Proof.
  induction frames as [|frames IH]; intros n self H; [lia|].
  cbn [Limited.visit_python_node].
  pose proof (height_children n) as C.
  destruct (frames <? 2) eqn:F; [apply Nat.ltb_lt in F; lia|].
  rewrite visit_python_node_children.
  apply for_each_done. intros child s I. apply IH.
  apply height_child in I. lia.
Qed.


Section LimitedFacts.

Variable frames : nat.
Variable ast_parse : text -> outcome node.



(** Within the limit the recursion limit changes nothing: result and
    counter are those of the path on which the walk is taken to return. *)
Lemma within_limit self file_path code_content :
  (forall tree, ast_parse code_content = Returns tree -> height tree + 2 <= frames) ->
  Limited.calculate_complexity frames ast_parse self file_path code_content
  = calculate_complexity ast_parse self file_path code_content.
Proof.
  intros H.
  assert (E : Limited.analyze_python frames ast_parse self code_content
              = analyze_python ast_parse self code_content).
  { unfold Limited.analyze_python, analyze_python.
    destruct (ast_parse code_content) as [tree|e]; [|reflexivity].
    now rewrite visit_within_limit by (apply H; reflexivity). }
  unfold Limited.calculate_complexity, calculate_complexity. now rewrite E.
Qed.

End LimitedFacts.

(** ** Stripping of comments and string literals *)

Lemma text_strong_ind (P : text -> Prop) :
  (forall s, (forall s', length s' < length s -> P s') -> P s) ->
  forall s, P s.
Proof.
  intros H s. remember (length s) as n eqn:E. revert s E.
  induction n as [n IH] using lt_wf_ind. intros s ->.
  apply H. intros s' L. exact (IH _ L s' eq_refl).
Qed.

Lemma skipn_length_lt (A : Type) k (c : A) r : length (skipn k r) < length (c :: r).
Proof. rewrite length_skipn. simpl. lia. Qed.

Section ScanFacts.

Variable m : text -> option nat.
Variable repl : text.

(** The characters of a match that are still pending are dropped. *)
Lemma re_sub_pending k s : re_sub m repl k s = re_sub m repl 0 (skipn k s).
Proof.
  revert k. induction s as [|c r IH]; intros [|k]; try reflexivity.
  simpl. apply IH.
Qed.

Lemma re_sub_no_match c r :
  m (c :: r) = None -> re_sub m repl 0 (c :: r) = c :: re_sub m repl 0 r.
Proof. intros E. simpl. rewrite E. reflexivity. Qed.

Lemma re_sub_empty_match c r :
  m (c :: r) = Some 0 -> re_sub m repl 0 (c :: r) = c :: re_sub m repl 0 r.
Proof. intros E. simpl. rewrite E. reflexivity. Qed.

Lemma re_sub_match c r n :
  m (c :: r) = Some (S n) ->
  re_sub m repl 0 (c :: r) = repl ++ re_sub m repl 0 (skipn n r).
Proof. intros E. simpl. rewrite E. rewrite re_sub_pending. reflexivity. Qed.

(** A text in which the pattern matches nowhere is returned as it is. *)
Lemma re_sub_unmatched s : unmatched m s -> re_sub m repl 0 s = s.
Proof.
  induction s as [|c r IH]; intros U; [reflexivity|].
  rewrite re_sub_no_match by exact (U 0). f_equal. apply IH.
  intros k. exact (U (S k)).
Qed.

(** The substitution brings in no character but those of the replacement. *)
Lemma re_sub_In x s : In x (re_sub m repl 0 s) -> In x s \/ In x repl.
Proof.
  induction s as [s IH] using text_strong_ind. destruct s as [|c r]; [tauto|].
  assert (R : In x (re_sub m repl 0 r) -> In x (c :: r) \/ In x repl).
  { intros H. destruct (IH r (Nat.lt_succ_diag_r _) H); [left; right|right]; assumption. }
  destruct (m (c :: r)) as [[|n]|] eqn:E.
  - rewrite re_sub_empty_match by exact E.
    intros [<-|H]; [left; left; reflexivity | exact (R H)].
  - rewrite re_sub_match with (1 := E). intros H. apply in_app_or in H.
    destruct H as [H|H]; [tauto|].
    destruct (IH (skipn n r) (skipn_length_lt _ _ _) H) as [I|I]; [|tauto].
    left. right. rewrite <- (firstn_skipn n r). apply in_or_app. right. exact I.
  - rewrite re_sub_no_match by exact E.
    intros [<-|H]; [left; left; reflexivity | exact (R H)].
Qed.

End ScanFacts.

Lemma unmatched_cons m c r : unmatched m (c :: r) <-> m (c :: r) = None /\ unmatched m r.
Proof.
  split.
  - intros U. split; [exact (U 0)|]. intros k. exact (U (S k)).
  - intros [E U] [|k]; [exact E | exact (U k)].
Qed.

Lemma unmatched_skipn m k s : unmatched m s -> unmatched m (skipn k s).
Proof. intros U j. rewrite skipn_skipn. apply U. Qed.

(** *** Adjacent characters *)

Lemma has_pair_unfold a b c r :
  has_pair a b (c :: r) = starts_with [a; b] (c :: r) || has_pair a b r.
Proof.
  destruct r as [|d r]; simpl.
  - now rewrite andb_false_r.
  - now rewrite andb_true_r, (Ascii.eqb_sym a c), (Ascii.eqb_sym b d).
Qed.

Lemma has_pair_cons a b c r : has_pair a b (c :: r) = false -> has_pair a b r = false.
Proof. rewrite has_pair_unfold. intros H. apply orb_false_iff in H. tauto. Qed.

Lemma has_pair_skipn a b k s : has_pair a b s = false -> has_pair a b (skipn k s) = false.
Proof.
  revert s. induction k as [|k IH]; intros [|c r] H; try exact H.
  simpl. apply IH. eapply has_pair_cons; eassumption.
Qed.

Lemma has_pair_other a b c r : c <> a -> has_pair a b (c :: r) = has_pair a b r.
Proof.
  intros N. rewrite has_pair_unfold. simpl.
  destruct (Ascii.eqb_spec a c); [congruence|]. reflexivity.
Qed.

Lemma last_default (A : Type) (d : A) l x y : last (d :: l) x = last (d :: l) y.
Proof.
  revert d. induction l as [|e l IH]; intros d; [reflexivity|].
  change (last (e :: l) x = last (e :: l) y). apply IH.
Qed.

Lemma last_cons (A : Type) (c : A) l prev : last (c :: l) prev = last l c.
Proof.
  destruct l as [|d l]; [reflexivity|].
  change (last (d :: l) prev = last (d :: l) c). apply last_default.
Qed.

(** Across a junction a pair lies in one part, or on its last and first
    characters. *)
Lemma has_pair_app a b prev l s :
  has_pair a b ((prev :: l) ++ s)
  = has_pair a b (prev :: l) || has_pair a b (last l prev :: s).
Proof.
  revert prev. induction l as [|c l IH]; intros prev.
  - reflexivity.
  - change ((prev :: c :: l) ++ s) with (prev :: (c :: l) ++ s).
    rewrite (has_pair_unfold a b prev ((c :: l) ++ s)), IH.
    rewrite (has_pair_unfold a b prev (c :: l)), last_cons.
    simpl. now rewrite orb_assoc.
Qed.

Lemma find_pair a b s : find [a; b] s = None <-> has_pair a b s = false.
Proof.
  induction s as [|c r IH].
  - simpl. tauto.
  - rewrite has_pair_unfold. cbn [find].
    destruct (starts_with [a; b] (c :: r)); simpl.
    + split; discriminate.
    + rewrite <- IH. destruct (find [a; b] r); simpl; split; congruence.
Qed.

Lemma find_char q s : find [q] s = None <-> ~ In q s.
Proof.
  induction s as [|c r IH].
  - simpl. tauto.
  - cbn [find starts_with]. destruct (Ascii.eqb_spec q c) as [->|N]; simpl.
    + split; [discriminate|]. intros H. exfalso. apply H. now left.
    + destruct (find [q] r); simpl.
      * split; [discriminate|]. intros H. exfalso.
        assert (~ In q r) by (intros I; apply H; now right). destruct IH as [_ IH].
        specialize (IH H0). discriminate.
      * split; [|reflexivity]. intros _ [E|I]; [congruence|].
        destruct IH as [IH _]. exact (IH eq_refl I).
Qed.

(** Where the closing quote is found. *)
Lemma find_char_split q s j :
  find [q] s = Some j ->
  s = firstn j s ++ q :: skipn (S j) s /\ ~ In q (firstn j s).
Proof.
  revert j. induction s as [|c r IH]; intros j; [discriminate|].
  cbn [find starts_with]. destruct (Ascii.eqb_spec q c) as [->|N]; simpl.
  - intros E. inversion E. simpl. tauto.
  - destruct (find [q] r) as [i|] eqn:F; [|discriminate].
    simpl. intros E. inversion E. subst j. destruct (IH i eq_refl) as [S1 S2].
    simpl. split; [f_equal; exact S1|]. intros [E'|I]; [congruence | exact (S2 I)].
Qed.

Lemma In_skipn (A : Type) (x : A) n l : In x (skipn n l) -> In x l.
Proof. intros H. rewrite <- (firstn_skipn n l). apply in_or_app. now right. Qed.

(** *** The shapes of the matches *)

Lemma m_line_none marker s : m_line marker s = None <-> starts_with marker s = false.
Proof. unfold m_line. destruct (starts_with marker s); split; congruence. Qed.

Lemma rest_of_line s :
  skipn (line_len s) s = [] \/ exists r, skipn (line_len s) s = newline :: r.
Proof.
  induction s as [|c r IH]; [now left|]. simpl.
  destruct (Ascii.eqb_spec c newline) as [->|N]; [right; eexists; reflexivity|].
  exact IH.
Qed.

(** After a line comment the scan resumes at the end of the line. *)
Lemma m_line_some marker c r n :
  m_line marker (c :: r) = Some (S n) ->
  starts_with marker (c :: r) = true
  /\ exists k, skipn n r = skipn k (c :: r)
               /\ (skipn n r = [] \/ exists r', skipn n r = newline :: r').
Proof.
  unfold m_line. destruct (starts_with marker (c :: r)) eqn:E; [|discriminate].
  intros H. inversion H as [H']. split; [reflexivity|].
  exists (S n). split; [reflexivity|].
  destruct marker as [|a marker]; simpl in *.
  - destruct (Ascii.eqb_spec c newline); [discriminate|]. inversion H'. subst n.
    apply rest_of_line.
  - inversion H'. subst n. rewrite Nat.add_comm, <- skipn_skipn. apply rest_of_line.
Qed.

Lemma m_block_some c r n :
  m_block (c :: r) = Some n ->
  c = slash /\ exists r' j, r = star :: r' /\ find [star; slash] r' = Some j
                            /\ n = 2 + j + 2.
Proof.
  unfold m_block. cbn [starts_with skipn].
  destruct (Ascii.eqb_spec slash c) as [<-|]; [|discriminate].
  destruct r as [|d r']; [discriminate|].
  destruct (Ascii.eqb_spec star d) as [<-|]; [|discriminate].
  cbn [andb]. destruct (find [star; slash] r') as [j|] eqn:F; [|discriminate].
  cbn [option_map]. intros H. inversion H. split; [reflexivity|].
  exists r', j. repeat split. exact F.
Qed.

Lemma m_block_none c r :
  m_block (c :: r) = None <->
  (c <> slash \/ hd_error r <> Some star \/ has_pair star slash (skipn 1 r) = false).
Proof.
  unfold m_block. cbn [starts_with skipn].
  destruct (Ascii.eqb_spec slash c) as [<-|N]; cbn [andb].
  - destruct r as [|d r']; cbn [hd_error].
    + split; [intros _; right; left; discriminate | reflexivity].
    + destruct (Ascii.eqb_spec star d) as [<-|N]; cbn [andb].
      * rewrite <- find_pair. destruct (find [star; slash] r'); cbn [option_map].
        -- split; [discriminate|]. intros [H|[H|H]]; congruence.
        -- split; auto.
      * split; [|reflexivity]. intros _. right. left. congruence.
  - split; [|reflexivity]. intros _. left. congruence.
Qed.

Lemma m_quoted_some q c r n :
  m_quoted q (c :: r) = Some n ->
  c = q /\ exists j, find [q] r = Some j /\ n = j + 2.
Proof.
  unfold m_quoted. destruct (Ascii.eqb_spec c q) as [->|]; [|discriminate].
  destruct (find [q] r) as [j|] eqn:F; [|discriminate].
  simpl. intros H. inversion H. split; [reflexivity|]. exists j. split; reflexivity.
Qed.

Lemma m_quoted_other q c r : c <> q -> m_quoted q (c :: r) = None.
Proof. intros N. unfold m_quoted. destruct (Ascii.eqb_spec c q); congruence. Qed.

Lemma m_quoted_open q r : ~ In q r -> m_quoted q (q :: r) = None.
Proof.
  intros N. unfold m_quoted. rewrite Ascii.eqb_refl.
  apply find_char in N. rewrite N. reflexivity.
Qed.

Lemma m_quoted_closed q r j :
  find [q] r = Some j -> m_quoted q (q :: r) = Some (S (S j)).
Proof.
  intros F. unfold m_quoted. rewrite Ascii.eqb_refl, F. simpl.
  f_equal. lia.
Qed.

(** *** Adjacent characters are not brought together *)

Lemma starts_with_pair a b c d r r' :
  starts_with [a; b] (c :: d :: r) = starts_with [a; b] (c :: d :: r').
Proof. simpl. now rewrite !andb_true_r. Qed.

Section NoPair.

Variable m : text -> option nat.
Variable repl : text.
Variables a b : ascii.

(** Where a match is replaced, the replacement and the text that follows it
    bring no pair. *)
Hypothesis keeps :
  forall prev c r n,
    m (c :: r) = Some (S n) ->
    has_pair a b (prev :: c :: r) = false ->
    has_pair a b (prev :: repl) = false
    /\ has_pair a b (last repl prev :: skipn n r) = false.

Lemma re_sub_no_pair_after :
  forall s prev,
    has_pair a b (prev :: s) = false ->
    has_pair a b (prev :: re_sub m repl 0 s) = false.
Proof.
  apply (text_strong_ind
           (fun s => forall prev,
                has_pair a b (prev :: s) = false ->
                has_pair a b (prev :: re_sub m repl 0 s) = false)).
  intros s IH prev H.
  destruct s as [|c r]; [exact H|].
  assert (N : has_pair a b (prev :: c :: re_sub m repl 0 r) = false).
  { rewrite has_pair_unfold in *. apply orb_false_iff in H. destruct H as [H1 H2].
    apply orb_false_iff. split.
    - rewrite (starts_with_pair a b prev c _ r). exact H1.
    - apply IH; [apply Nat.lt_succ_diag_r | exact H2]. }
  destruct (m (c :: r)) as [[|n]|] eqn:E.
  - rewrite re_sub_empty_match by exact E. exact N.
  - rewrite re_sub_match with (1 := E).
    destruct (keeps _ E H) as [K1 K2].
    change (prev :: repl ++ re_sub m repl 0 (skipn n r))
      with ((prev :: repl) ++ re_sub m repl 0 (skipn n r)).
    rewrite has_pair_app, K1. simpl orb.
    apply IH; [apply skipn_length_lt | exact K2].
  - rewrite re_sub_no_match by exact E. exact N.
Qed.

End NoPair.

Lemma re_sub_no_pair m repl a b s :
  a <> newline ->
  (forall prev c r n,
      m (c :: r) = Some (S n) ->
      has_pair a b (prev :: c :: r) = false ->
      has_pair a b (prev :: repl) = false
      /\ has_pair a b (last repl prev :: skipn n r) = false) ->
  has_pair a b s = false ->
  has_pair a b (re_sub m repl 0 s) = false.
Proof.
  intros N K H.
  rewrite <- (has_pair_other b (re_sub m repl 0 s) (not_eq_sym N)).
  apply re_sub_no_pair_after; [exact K|].
  rewrite has_pair_other by exact (not_eq_sym N). exact H.
Qed.

Lemma has_pair_suffix a b c r n :
  has_pair a b (c :: r) = false -> has_pair a b (skipn n r) = false.
Proof. intros H. apply has_pair_skipn. eapply has_pair_cons. exact H. Qed.

(** The removal of [#] comments brings no two slashes together: what
    follows a comment is the end of the line. *)
Lemma hash_keeps_slashes s :
  has_pair slash slash s = false ->
  has_pair slash slash (re_sub (m_line [hash]) [] 0 s) = false.
Proof.
  apply re_sub_no_pair; [discriminate|].
  intros prev c r n E H. split; [reflexivity|]. cbn [last].
  apply has_pair_cons in H.
  destruct (@m_line_some _ _ _ _ E) as [_ [k [_ [R|[r' R]]]]]; rewrite R; [reflexivity|].
  rewrite has_pair_unfold. apply orb_false_iff. split.
  - simpl. apply andb_false_r.
  - rewrite <- R. eapply has_pair_suffix. exact H.
Qed.

(** Nor does the removal of block comments: the character before a comment
    is not a slash. *)
Lemma block_keeps_slashes s :
  has_pair slash slash s = false ->
  has_pair slash slash (re_sub m_block [] 0 s) = false.
Proof.
  apply re_sub_no_pair; [discriminate|].
  intros prev c r n E H. split; [reflexivity|]. cbn [last].
  destruct (@m_block_some _ _ _ E) as [-> _].
  rewrite has_pair_unfold in H. apply orb_false_iff in H. destruct H as [H1 H2].
  assert (P : prev <> slash).
  { intros ->. simpl in H1. discriminate. }
  rewrite has_pair_other by exact P. eapply has_pair_suffix. exact H2.
Qed.

(** Nor does the replacement of quoted literals, the quotes being kept. *)
Lemma quoted_keeps_pair q a b s :
  a <> newline -> q <> a -> q <> b ->
  has_pair a b s = false ->
  has_pair a b (re_sub (m_quoted q) [q; q] 0 s) = false.
Proof.
  intros N Qa Qb. apply re_sub_no_pair; [exact N|].
  intros prev c r n E H. cbn [last]. split.
  - rewrite !has_pair_unfold. simpl.
    destruct (Ascii.eqb_spec b q); [congruence|].
    destruct (Ascii.eqb_spec a q); [congruence|].
    now rewrite !andb_false_r.
  - rewrite has_pair_other by exact Qa.
    apply has_pair_cons in H. eapply has_pair_suffix. exact H.
Qed.

(** *** Each removal leaves nothing of its own to remove *)

Lemma no_pair_unmatched_line a b s :
  has_pair a b s = false -> unmatched (m_line [a; b]) s.
Proof.
  intros H k. apply m_line_none.
  apply (has_pair_skipn a b k) in H.
  destruct (skipn k s) as [|c r]; [reflexivity|].
  rewrite has_pair_unfold in H. apply orb_false_iff in H. tauto.
Qed.

Lemma slashes_removed :
  forall s, has_pair slash slash (re_sub (m_line [slash; slash]) [] 0 s) = false.
Proof.
  apply (text_strong_ind
           (fun s => has_pair slash slash (re_sub (m_line [slash; slash]) [] 0 s) = false)).
  intros s IH. destruct s as [|c r]; [reflexivity|].
  destruct (m_line [slash; slash] (c :: r)) as [n|] eqn:E.
  - destruct n as [|n]; [unfold m_line in E; destruct (starts_with _ _); discriminate|].
    rewrite re_sub_match with (1 := E). apply IH, skipn_length_lt.
  - rewrite re_sub_no_match by exact E.
    rewrite has_pair_unfold. apply orb_false_iff.
    split; [|apply IH, Nat.lt_succ_diag_r].
    apply m_line_none in E. cbn [starts_with] in *.
    destruct (Ascii.eqb_spec slash c) as [<-|N]; [|reflexivity].
    destruct r as [|d r']; [reflexivity|].
    destruct (Ascii.eqb_spec slash d) as [<-|N]; [discriminate|].
    rewrite re_sub_no_match.
    + cbn [starts_with andb]. destruct (Ascii.eqb_spec slash d); [congruence|reflexivity].
    + apply m_line_none. cbn [starts_with]. destruct (Ascii.eqb_spec slash d); [congruence|reflexivity].
Qed.

Lemma no_char_unmatched_line a s : ~ In a s -> unmatched (m_line [a]) s.
Proof.
  intros H k. apply m_line_none.
  destruct (skipn k s) as [|c r] eqn:E; [reflexivity|].
  cbn [starts_with]. destruct (Ascii.eqb_spec a c) as [->|]; [|reflexivity].
  exfalso. apply H. apply (@In_skipn _ c k). rewrite E. now left.
Qed.

Lemma hashes_removed : forall s, ~ In hash (re_sub (m_line [hash]) [] 0 s).
Proof.
  apply (text_strong_ind (fun s => ~ In hash (re_sub (m_line [hash]) [] 0 s))).
  intros s IH. destruct s as [|c r]; [intros []|].
  destruct (m_line [hash] (c :: r)) as [n|] eqn:E.
  - destruct n as [|n]; [unfold m_line in E; destruct (starts_with _ _); discriminate|].
    rewrite re_sub_match with (1 := E). apply IH, skipn_length_lt.
  - rewrite re_sub_no_match by exact E. intros [->|I].
    + apply m_line_none in E. cbn [starts_with] in E.
      rewrite Ascii.eqb_refl in E. discriminate.
    + exact (IH r (Nat.lt_succ_diag_r _) I).
Qed.

Lemma no_closer_unmatched s :
  has_pair star slash s = false -> unmatched m_block s.
Proof.
  intros H k. destruct (skipn k s) as [|c r] eqn:E; [reflexivity|].
  apply m_block_none. right. right.
  apply (has_pair_skipn star slash k) in H. rewrite E in H.
  eapply has_pair_suffix. exact H.
Qed.

Lemma m_block_not_slash c r : c <> slash -> m_block (c :: r) = None.
Proof. intros N. apply m_block_none. now left. Qed.

(** Once no two slashes are adjacent, the removal of block comments leaves
    no block comment: an opener is not completed by what follows a removed
    comment. *)
Lemma blocks_removed :
  forall s, has_pair slash slash s = false -> unmatched m_block (re_sub m_block [] 0 s).
Proof.
  apply (text_strong_ind
           (fun s => has_pair slash slash s = false ->
                     unmatched m_block (re_sub m_block [] 0 s))).
  intros s IH H. destruct s as [|c r]; [intros k; now destruct k|].
  destruct (m_block (c :: r)) as [n|] eqn:E.
  - destruct n as [|n];
      [destruct (@m_block_some _ _ _ E) as [_ [? [? [_ [_ ?]]]]]; discriminate|].
    rewrite re_sub_match with (1 := E).
    apply IH; [apply skipn_length_lt | eapply has_pair_suffix; exact H].
  - rewrite re_sub_no_match by exact E. apply unmatched_cons.
    split; [|apply IH; [apply Nat.lt_succ_diag_r | eapply has_pair_cons; exact H]].
    destruct (ascii_dec c slash) as [->|N]; [|now apply m_block_not_slash].
    destruct r as [|d r']; [reflexivity|].
    assert (D : d <> slash).
    { intros ->. simpl in H. discriminate. }
    rewrite re_sub_no_match by (apply m_block_not_slash; exact D).
    apply m_block_none. apply m_block_none in E.
    destruct E as [E|[E|E]]; [congruence | right; left; exact E |].
    destruct (ascii_dec d star) as [->|S]; [|right; left; simpl; congruence].
    right. right. cbn [skipn] in *.
    rewrite re_sub_unmatched by (apply no_closer_unmatched; exact E). exact E.
Qed.

Lemma quoted_hd q s :
  hd_error (re_sub (m_quoted q) [q; q] 0 s) = hd_error s.
Proof.
  destruct s as [|c r]; [reflexivity|].
  destruct (m_quoted q (c :: r)) as [[|n]|] eqn:E.
  - rewrite re_sub_empty_match by exact E. reflexivity.
  - rewrite re_sub_match with (1 := E).
    destruct (@m_quoted_some _ _ _ _ E) as [-> _]. reflexivity.
  - rewrite re_sub_no_match by exact E. reflexivity.
Qed.

(** The replacement of quoted literals completes no block comment. *)
Lemma quoted_keeps_blocks q :
  q <> slash -> q <> star ->
  forall s, unmatched m_block s ->
            unmatched m_block (re_sub (m_quoted q) [q; q] 0 s).
Proof.
  intros Q1 Q2.
  apply (text_strong_ind
           (fun s => unmatched m_block s ->
                     unmatched m_block (re_sub (m_quoted q) [q; q] 0 s))).
  intros s IH U. destruct s as [|c r]; [exact U|].
  apply unmatched_cons in U. destruct U as [E U].
  assert (N : unmatched m_block (c :: re_sub (m_quoted q) [q; q] 0 r)).
  { apply unmatched_cons. split; [|apply IH; [apply Nat.lt_succ_diag_r | exact U]].
    apply m_block_none. apply m_block_none in E.
    destruct E as [E|[E|E]]; [now left | right; left; now rewrite quoted_hd |].
    destruct r as [|d r']; [right; left; discriminate|].
    destruct (ascii_dec d star) as [->|S].
    - right. right.
      rewrite re_sub_no_match by (apply m_quoted_other; congruence).
      cbn [skipn] in *. apply quoted_keeps_pair; auto. discriminate.
    - right. left. rewrite quoted_hd. simpl. congruence. }
  destruct (m_quoted q (c :: r)) as [[|n]|] eqn:M.
  - rewrite re_sub_empty_match by exact M. exact N.
  - rewrite re_sub_match with (1 := M).
    cbn [app]. apply unmatched_cons. split; [now apply m_block_not_slash|].
    apply unmatched_cons. split; [now apply m_block_not_slash|].
    apply IH; [apply skipn_length_lt | now apply unmatched_skipn].
  - rewrite re_sub_no_match by exact M. exact N.
Qed.

(** *** Quoted literals *)

Lemma no_quote_unmatched q s : ~ In q s -> unmatched (m_quoted q) s.
Proof.
  intros H k. destruct (skipn k s) as [|c r] eqn:E; [reflexivity|].
  destruct (ascii_dec c q) as [->|N]; [|now apply m_quoted_other].
  exfalso. apply H. apply (@In_skipn _ q k). rewrite E. now left.
Qed.

Lemma quoted_step_other q c r :
  c <> q ->
  re_sub (m_quoted q) [q; q] 0 (c :: r) = c :: re_sub (m_quoted q) [q; q] 0 r.
Proof. intros N. apply re_sub_no_match. now apply m_quoted_other. Qed.

Lemma quoted_step_open q r :
  ~ In q r -> re_sub (m_quoted q) [q; q] 0 (q :: r) = q :: r.
Proof.
  intros N. rewrite re_sub_no_match by now apply m_quoted_open.
  f_equal. apply re_sub_unmatched. now apply no_quote_unmatched.
Qed.

Lemma quoted_step_closed q r j :
  find [q] r = Some j ->
  re_sub (m_quoted q) [q; q] 0 (q :: r)
  = q :: q :: re_sub (m_quoted q) [q; q] 0 (skipn (S j) r).
Proof.
  intros F. rewrite re_sub_match with (n := S j) by now apply m_quoted_closed.
  reflexivity.
Qed.

Lemma skipn_1_cons (A : Type) (c : A) r : skipn 1 (c :: r) = r.
Proof. reflexivity. Qed.

Lemma find_char_here q r : find [q] (q :: r) = Some 0.
Proof. cbn [find starts_with]. now rewrite Ascii.eqb_refl. Qed.

(** The replacement of the literals of one quote is idempotent. *)
Lemma quoted_fixed q : forall s, quote_fixed q (re_sub (m_quoted q) [q; q] 0 s).
Proof.
  apply (text_strong_ind (fun s => quote_fixed q (re_sub (m_quoted q) [q; q] 0 s))).
  intros s IH. unfold quote_fixed in *. destruct s as [|c r]; [reflexivity|].
  destruct (ascii_dec c q) as [->|N].
  - destruct (find [q] r) as [j|] eqn:F.
    + rewrite quoted_step_closed with (1 := F).
      rewrite quoted_step_closed with (j := 0) by apply find_char_here.
      rewrite skipn_1_cons. do 2 f_equal. apply IH, skipn_length_lt.
    + apply find_char in F. now rewrite !quoted_step_open.
  - rewrite !quoted_step_other by exact N. f_equal. apply IH, Nat.lt_succ_diag_r.
Qed.

(** A fixed text that opens with a quote has no other, or has the closing
    quote next to it. *)
Lemma quote_fixed_inv q r :
  quote_fixed q (q :: r) ->
  ~ In q r \/ exists rest, r = q :: rest /\ quote_fixed q rest.
Proof.
  unfold quote_fixed. destruct (find [q] r) as [j|] eqn:F.
  - rewrite quoted_step_closed with (1 := F). intros E. right.
    destruct (@find_char_split _ _ _ F) as [S1 S2].
    destruct r as [|d r0]; [discriminate E|].
    injection E as E1 E2. subst d. destruct j as [|j].
    + exists r0. split; [reflexivity|]. exact E2.
    + exfalso. apply S2. now left.
  - intros _. left. now apply find_char.
Qed.

(** What follows a character other than the quote, in a fixed text, is
    fixed. *)
Lemma quote_fixed_suffix q c y :
  c <> q ->
  forall a, quote_fixed q (a ++ c :: y) -> quote_fixed q y.
Proof.
  intros N.
  apply (text_strong_ind (fun a => quote_fixed q (a ++ c :: y) -> quote_fixed q y)).
  intros a IH H. destruct a as [|d a'].
  - unfold quote_fixed in *. cbn [app] in H.
    rewrite quoted_step_other in H by exact N. injection H as H. exact H.
  - cbn [app] in H. destruct (ascii_dec d q) as [->|D].
    + destruct (@quote_fixed_inv _ _ H) as [I|[rest [E F]]].
      * apply re_sub_unmatched, no_quote_unmatched.
        intros J. apply I. apply in_or_app. right. now right.
      * destruct a' as [|e a'']; cbn [app] in E; inversion E; [congruence|].
        subst. apply (IH a''); [simpl; lia | exact F].
    + apply (IH a'); [apply Nat.lt_succ_diag_r|].
      unfold quote_fixed in *. rewrite quoted_step_other in H by exact D.
      injection H as H. exact H.
Qed.

(** The replacement of the literals of another quote keeps a text fixed:
    it removes whole pairs of adjacent quotes only. *)
Lemma quoted_keeps_fixed q q' :
  q <> q' ->
  forall s, quote_fixed q s -> quote_fixed q (re_sub (m_quoted q') [q'; q'] 0 s).
Proof.
  intros N.
  apply (text_strong_ind
           (fun s => quote_fixed q s ->
                     quote_fixed q (re_sub (m_quoted q') [q'; q'] 0 s))).
  intros s IH H. destruct s as [|c r]; [exact H|].
  assert (K : m_quoted q' (c :: r) = None \/ m_quoted q' (c :: r) = Some 0 ->
              quote_fixed q (c :: re_sub (m_quoted q') [q'; q'] 0 r)).
  { intros M. destruct (ascii_dec c q) as [->|C].
    - destruct (@quote_fixed_inv _ _ H) as [I|[rest [-> F]]].
      + unfold quote_fixed. apply quoted_step_open. intros J.
        apply re_sub_In in J. destruct J as [J|[J|[J|[]]]]; congruence.
      + rewrite quoted_step_other by exact N. unfold quote_fixed.
        rewrite quoted_step_closed with (j := 0) by apply find_char_here.
        rewrite skipn_1_cons. do 2 f_equal. apply IH; [simpl; lia | exact F].
    - unfold quote_fixed in *. rewrite quoted_step_other in * by exact C.
      f_equal. apply IH; [apply Nat.lt_succ_diag_r | injection H as H; exact H]. }
  destruct (m_quoted q' (c :: r)) as [[|n]|] eqn:M.
  - rewrite re_sub_empty_match by exact M. apply K. now right.
  - destruct (@m_quoted_some _ _ _ _ M) as [-> [j [F E]]].
    assert (n = S j) by lia. subst n.
    rewrite re_sub_match with (1 := M). cbn [app].
    destruct (@find_char_split _ _ _ F) as [S1 _].
    assert (X : quote_fixed q (skipn (S j) r)).
    { apply (@quote_fixed_suffix q q' (skipn (S j) r) (not_eq_sym N) (q' :: firstn j r)).
      cbn [app]. rewrite <- S1. exact H. }
    unfold quote_fixed. rewrite !quoted_step_other by (apply not_eq_sym; exact N).
    do 2 f_equal. apply IH; [apply skipn_length_lt | exact X].
  - rewrite re_sub_no_match by exact M. apply K. now left.
Qed.

(** C6.  The stripping of comments and string literals is idempotent. *)
Theorem C6_stripping_idempotent code_content :
  remove_comments_and_strings (remove_comments_and_strings code_content)
  = remove_comments_and_strings code_content.
Proof.
  set (t1 := re_sub (m_line [slash; slash]) [] 0 code_content).
  set (t2 := re_sub (m_line [hash]) [] 0 t1).
  set (t3 := re_sub m_block [] 0 t2).
  set (t4 := re_sub (m_quoted dquote) [dquote; dquote] 0 t3).
  set (t5 := re_sub (m_quoted squote) [squote; squote] 0 t4).
  set (t6 := re_sub (m_quoted backtick) [backtick; backtick] 0 t5).
  change (remove_comments_and_strings code_content) with t6.
  assert (S2 : has_pair slash slash t2 = false)
    by apply hash_keeps_slashes, slashes_removed.
  assert (P1 : has_pair slash slash t6 = false).
  { do 3 (apply quoted_keeps_pair; try discriminate).
    apply block_keeps_slashes, S2. }
  assert (P2 : ~ In hash t6).
  { intros I.
    do 4 (apply re_sub_In in I; destruct I as [I|I];
            [|repeat (destruct I as [I|I]; try discriminate I); try contradiction]).
    exact (hashes_removed t1 I). }
  assert (P3 : unmatched m_block t6).
  { do 3 (apply quoted_keeps_blocks; try discriminate). apply blocks_removed, S2. }
  assert (P4 : quote_fixed dquote t6).
  { do 2 (apply quoted_keeps_fixed; [discriminate|]). apply quoted_fixed. }
  assert (P5 : quote_fixed squote t6).
  { apply quoted_keeps_fixed; [discriminate|]. apply quoted_fixed. }
  assert (P6 : quote_fixed backtick t6) by apply quoted_fixed.
  unfold remove_comments_and_strings.
  rewrite (@re_sub_unmatched (m_line [slash; slash]) [] t6)
    by (apply no_pair_unmatched_line; exact P1).
  rewrite (@re_sub_unmatched (m_line [hash]) [] t6)
    by (apply no_char_unmatched_line; exact P2).
  rewrite (@re_sub_unmatched m_block [] t6) by exact P3.
  rewrite P4, P5. exact P6.
Qed.

(** *** Characters that a pass copies, matches that do not look back *)

Section SkipChars.

Variable m : text -> option nat.
Variable repl : text.

(** Characters at which the pattern cannot start are copied. *)
Lemma re_sub_prefix prefix s :
  Forall (fun c => forall r, m (c :: r) = None) prefix ->
  re_sub m repl 0 (prefix ++ s) = prefix ++ re_sub m repl 0 s.
Proof.
  induction 1 as [|c prefix H _ IH]; [reflexivity|].
  cbn [app]. rewrite re_sub_no_match by apply H. f_equal. exact IH.
Qed.

End SkipChars.

Lemma m_line_other a marker c r : c <> a -> m_line (a :: marker) (c :: r) = None.
Proof.
  intros N. apply m_line_none. cbn [starts_with].
  destruct (Ascii.eqb_spec a c); [congruence|reflexivity].
Qed.

Lemma find_char_app q content s :
  ~ In q content -> find [q] (content ++ q :: s) = Some (length content).
Proof.
  induction content as [|c content IH]; intros N.
  - apply find_char_here.
  - cbn [app find starts_with length].
    destruct (Ascii.eqb_spec q c) as [->|D]; [exfalso; apply N; now left|].
    cbn [andb]. rewrite IH; [reflexivity|]. intros I. apply N. now right.
Qed.

Lemma skipn_past (A : Type) (l : list A) x s : skipn (S (length l)) (l ++ x :: s) = s.
Proof. induction l as [|c l IH]; [reflexivity | exact IH]. Qed.

Lemma m_pattern_prev p prev1 prev2 s :
  word_char prev1 = word_char prev2 -> m_pattern p prev1 s = m_pattern p prev2 s.
Proof.
  intros H. destruct p as [| | |keyword]; try reflexivity.
  unfold m_pattern, at_boundary, char_before.
  destruct (length keyword); rewrite H; reflexivity.
Qed.

Lemma re_findall_prev p prev1 prev2 s :
  word_char prev1 = word_char prev2 ->
  re_findall (m_pattern p) prev1 0 s = re_findall (m_pattern p) prev2 0 s.
Proof.
  intros H. destruct s as [|c r]; [reflexivity|].
  cbn [re_findall]. now rewrite (@m_pattern_prev p prev1 prev2 (c :: r) H).
Qed.

(** ** Letter case *)

Ltac each_char c := destruct c as [[] [] [] [] [] [] [] []]; reflexivity.

Lemma py_lower_idempotent c : py_lower (py_lower c) = py_lower c.
Proof. each_char c. Qed.

Lemma is_word_lower c : is_word (py_lower c) = is_word c.
Proof. each_char c. Qed.

(** ** Line comments after any text *)

Lemma skip_line_app x tail :
  skipn (line_len (x ++ tail)) (x ++ tail)
  = match skipn (line_len x) x with
    | [] => skipn (line_len tail) tail
    | l => l ++ tail
    end.
Proof.
  induction x as [|c x IH]; [reflexivity|]. cbn [app line_len].
  destruct (Ascii.eqb c newline); [reflexivity|]. exact IH.
Qed.

Lemma line_without_newline s : ~ In newline s -> skipn (line_len s) s = [].
Proof.
  induction s as [|c s IH]; intros N; [reflexivity|]. cbn [line_len].
  destruct (Ascii.eqb_spec c newline) as [->|D]; [exfalso; apply N; now left|].
  apply IH. intros I. apply N. now right.
Qed.

Lemma line_start rest : hd newline rest = newline -> skipn (line_len rest) rest = rest.
Proof.
  destruct rest as [|c r]; [reflexivity|]. cbn [hd line_len]. intros ->.
  rewrite Ascii.eqb_refl. reflexivity.
Qed.

Lemma last_tail (c : ascii) r : last (c :: r) newline <> slash -> last r newline <> slash.
Proof. destruct r; [intros _ E; discriminate E | exact (fun H => H)]. Qed.

Lemma last_suffix k : forall (r : text) e l,
  skipn k r = e :: l -> last (e :: l) newline = last r newline.
Proof.
  induction k as [|k IH]; intros r e l E; [now rewrite <- E|].
  destruct r as [|c r]; [discriminate|]. cbn [skipn] in E.
  rewrite (IH _ _ _ E). destruct r as [|d r]; [destruct k; discriminate|reflexivity].
Qed.

Lemma slash_comment_match r tail :
  re_sub (m_line [slash; slash]) [] 0 (slash :: slash :: r ++ tail)
  = re_sub (m_line [slash; slash]) [] 0 (skipn (line_len (r ++ tail)) (r ++ tail)).
Proof.
  rewrite re_sub_match with (n := S (line_len (r ++ tail))); reflexivity.
Qed.

Lemma slash_comment_removed comment code_content :
  ~ In newline comment ->
  hd newline code_content = newline ->
  forall prefix,
    last prefix newline <> slash ->
    re_sub (m_line [slash; slash]) [] 0 (prefix ++ slash :: slash :: comment ++ code_content)
    = re_sub (m_line [slash; slash]) [] 0 (prefix ++ code_content).
Proof.
  intros N H.
  assert (C : re_sub (m_line [slash; slash]) [] 0 (slash :: slash :: comment ++ code_content)
              = re_sub (m_line [slash; slash]) [] 0 code_content).
  { rewrite slash_comment_match, skip_line_app, line_without_newline by exact N.
    now rewrite line_start. }
  apply (text_strong_ind (fun prefix =>
    last prefix newline <> slash ->
    re_sub (m_line [slash; slash]) [] 0 (prefix ++ slash :: slash :: comment ++ code_content)
    = re_sub (m_line [slash; slash]) [] 0 (prefix ++ code_content))).
  intros prefix IH L. destruct prefix as [|c r]; [exact C|].
  destruct (Ascii.eqb_spec c slash) as [->|D].
  - destruct r as [|d r]; [exfalso; apply L; reflexivity|].
    destruct (Ascii.eqb_spec d slash) as [->|D].
    + cbn [app]. rewrite !slash_comment_match, !skip_line_app.
      destruct (skipn (line_len r) r) as [|e l] eqn:K.
      * change (slash :: slash :: comment ++ code_content)
          with ((slash :: slash :: comment) ++ code_content).
        rewrite skip_line_app, line_without_newline; [reflexivity|].
        intros [I|[I|I]]; [discriminate I | discriminate I | exact (N I)].
      * apply IH.
        -- apply (f_equal (@length ascii)) in K. rewrite length_skipn in K.
           cbn [length] in *. lia.
        -- rewrite (last_suffix _ _ K). now do 2 apply last_tail in L.
    + cbn [app].
      rewrite !re_sub_no_match
        by (apply m_line_none; cbn [starts_with];
            destruct (Ascii.eqb_spec slash d); [congruence|reflexivity]).
      do 2 f_equal. apply IH; [cbn [length]; lia | now do 2 apply last_tail in L].
  - cbn [app]. rewrite !re_sub_no_match by (apply m_line_other; exact D).
    f_equal. apply IH; [cbn [length]; lia | now apply last_tail in L].
Qed.

(** ** Lower bound on both paths *)

(** *** Keywords that do not occur *)






Lemma starts_with_ci_other x k d s :
  py_lower x <> py_lower d -> starts_with_ci (x :: k) (d :: s) = false.
Proof.
  intros N. cbn [starts_with_ci].
  destruct (Ascii.eqb_spec (py_lower x) (py_lower d)); [contradiction|reflexivity].
Qed.

Section Occurrences.

Variable m : text -> option nat.
Variable repl : text.
Variable k : text.

(** What the scan puts in the place of a match, with what follows it,
    starts with a character that the keyword does not hold. *)
Hypothesis after_match :
  forall c r n,
    m (c :: r) = Some (S n) ->
    match repl ++ re_sub m repl 0 (skipn n r) with
    | [] => True
    | d :: _ => forall x, In x k -> py_lower x <> py_lower d
    end.

Hypothesis repl_blocked :
  forall d x, In d repl -> In x k -> py_lower x <> py_lower d.




End Occurrences.








Lemma In_b_spec x l : In_b x l = true <-> In x l.
Proof.
  unfold In_b. rewrite existsb_exists. split.
  - intros [y [I E]]. apply text_eqb_eq in E. now subst.
  - intros I. exists x. split; [exact I | now apply text_eqb_eq].
Qed.






(** A single no-op statement scores 1 on both paths. *)
Example no_op_scores_1 :
  control_flow_free pass_module = true
  /\ fst (Limited.calculate_complexity 994 sample_parse fresh (T "main.py") (T "pass")) = 1%Z
  /\ keyword_free java_keywords (T ";") = true
  /\ fst (Limited.calculate_complexity 994 sample_parse fresh (T "Main.java") (T ";")) = 1%Z.
Proof. repeat split; vm_compute; reflexivity. Qed.

(** ** String literals and comments on the heuristic path *)

Lemma strip_passes s :
  remove_comments_and_strings s
  = strip_quoted backtick
      (strip_quoted squote
         (strip_quoted dquote (strip_blocks (strip_hashes (strip_slashes s))))).
Proof. reflexivity. Qed.

Lemma holds_In c s : holds c s = false <-> ~ In c s.
Proof.
  unfold holds. split.
  - intros H I. assert (E : existsb (Ascii.eqb c) s = true).
    { apply existsb_exists. exists c. split; [exact I | apply Ascii.eqb_refl]. }
    congruence.
  - intros N. destruct (existsb (Ascii.eqb c) s) eqn:E; [|reflexivity].
    apply existsb_exists in E. destruct E as [x [I E]].
    apply Ascii.eqb_eq in E. subst x. contradiction.
Qed.

(** *** Characters that a pass copies *)

Section PairOpened.

(** A pattern that starts with the two characters [a], [b]. *)
Variable m : text -> option nat.
Variable repl : text.
Variables a b : ascii.
Hypothesis opened : forall s, starts_with [a; b] s = false -> m s = None.

Lemma pair_through x :
  forall t,
    has_pair a b x = false ->
    (last x newline <> a \/ hd_error t <> Some b) ->
    re_sub m repl 0 (x ++ t) = x ++ re_sub m repl 0 t.
Proof.
  induction x as [|c x IH]; intros t P J; [reflexivity|].
  assert (N : m (c :: x ++ t) = None).
  { apply opened. destruct x as [|d x].
    - cbn [app starts_with last] in *.
      destruct (Ascii.eqb_spec a c) as [->|]; [|reflexivity]. cbn [andb].
      destruct t as [|e t]; [reflexivity|]. cbn [hd_error] in J.
      destruct (Ascii.eqb_spec b e) as [->|]; [|reflexivity].
      destruct J as [J|J]; exfalso; apply J; reflexivity.
    - rewrite has_pair_unfold in P. apply orb_false_iff in P. destruct P as [P _].
      cbn [app]. rewrite (starts_with_pair a b c d _ x). exact P. }
  cbn [app]. rewrite re_sub_no_match by exact N. f_equal.
  destruct x as [|d x]; [reflexivity|].
  apply IH; [eapply has_pair_cons; exact P | exact J].
Qed.

End PairOpened.

Lemma slashes_through x t :
  has_pair slash slash x = false ->
  (last x newline <> slash \/ hd_error t <> Some slash) ->
  strip_slashes (x ++ t) = x ++ strip_slashes t.
Proof. apply pair_through. intros s H. now apply m_line_none. Qed.

Lemma blocks_through x t :
  has_pair slash star x = false ->
  (last x newline <> slash \/ hd_error t <> Some star) ->
  strip_blocks (x ++ t) = x ++ strip_blocks t.
Proof.
  apply pair_through. intros s H. unfold m_block. now rewrite H.
Qed.

Lemma hashes_through x t :
  holds hash x = false -> strip_hashes (x ++ t) = x ++ strip_hashes t.
Proof.
  intros H. apply holds_In in H. apply re_sub_prefix.
  apply Forall_forall. intros c I r. apply m_line_other. intros ->. contradiction.
Qed.

Lemma quoted_through q x t :
  holds q x = false -> strip_quoted q (x ++ t) = x ++ strip_quoted q t.
Proof.
  intros H. apply holds_In in H. apply re_sub_prefix.
  apply Forall_forall. intros c I r. apply m_quoted_other. intros ->. contradiction.
Qed.

(** *** The first character after the comments are removed *)

Lemma slashes_hd t :
  hd_error t <> Some slash -> hd_error (strip_slashes t) = hd_error t.
Proof.
  destruct t as [|c r]; [reflexivity|]. cbn [hd_error]. intros N.
  unfold strip_slashes. rewrite re_sub_no_match; [reflexivity|].
  apply m_line_other. congruence.
Qed.

Lemma hashes_hd t c :
  c <> newline -> hd_error t <> Some c -> hd_error (strip_hashes t) <> Some c.
Proof.
  intros C N. destruct t as [|d r]; [exact N|]. unfold strip_hashes.
  destruct (m_line [hash] (d :: r)) as [[|n]|] eqn:E.
  - rewrite re_sub_empty_match by exact E. exact N.
  - rewrite re_sub_match with (1 := E). cbn [app].
    destruct (@m_line_some _ _ _ _ E) as [_ [k [_ [R|[r' R]]]]]; rewrite R.
    + discriminate.
    + rewrite re_sub_no_match by (apply m_line_other; discriminate).
      cbn [hd_error]. congruence.
  - rewrite re_sub_no_match by exact E. exact N.
Qed.

(** *** Single characters *)

Lemma ordinary_chars c :
  ordinary c = true ->
  c <> slash /\ c <> hash /\ c <> dquote /\ c <> squote /\ c <> backtick.
Proof.
  unfold ordinary, holds. cbn [existsb]. intros H.
  repeat split; intros ->; discriminate H.
Qed.

Lemma strip_char c t :
  ordinary c = true ->
  remove_comments_and_strings (c :: t) = c :: remove_comments_and_strings t.
Proof.
  intros O. destruct (ordinary_chars _ O) as [S [H [D [Q B]]]].
  rewrite !strip_passes.
  unfold strip_slashes, strip_hashes, strip_blocks, strip_quoted.
  rewrite (@re_sub_no_match (m_line [slash; slash])) by (apply m_line_other; exact S).
  rewrite (@re_sub_no_match (m_line [hash])) by (apply m_line_other; exact H).
  rewrite (@re_sub_no_match m_block) by (apply m_block_not_slash; exact S).
  rewrite !quoted_step_other by assumption. reflexivity.
Qed.

Lemma strip_slash t :
  hd_error t <> Some slash -> hd_error t <> Some star ->
  remove_comments_and_strings (slash :: t) = slash :: remove_comments_and_strings t.
Proof.
  intros S A. rewrite !strip_passes. change (slash :: t) with ([slash] ++ t).
  rewrite (@slashes_through [slash] t) by (reflexivity || now right).
  rewrite (@hashes_through [slash]) by reflexivity.
  rewrite (@blocks_through [slash]).
  - unfold strip_quoted. cbn [app]. rewrite !quoted_step_other by discriminate. reflexivity.
  - reflexivity.
  - right. apply hashes_hd; [discriminate|]. rewrite slashes_hd by exact S. exact A.
Qed.

(** *** Lines *)

Lemma line_len_line y v : line_len (y ++ newline :: v) = line_len y.
Proof.
  induction y as [|c y IH]; cbn [app line_len].
  - now rewrite Ascii.eqb_refl.
  - destruct (Ascii.eqb c newline); [reflexivity | now rewrite IH].
Qed.

Lemma line_len_le y : line_len y <= length y.
Proof.
  induction y as [|c y IH]; cbn [line_len length]; [lia|].
  destruct (Ascii.eqb c newline); lia.
Qed.

Lemma line_len_full y : ~ In newline y -> line_len y = length y.
Proof.
  induction y as [|c y IH]; intros N; [reflexivity|]. cbn [line_len length].
  destruct (Ascii.eqb_spec c newline) as [->|]; [exfalso; apply N; now left|].
  rewrite IH; [reflexivity|]. intros I. apply N. now right.
Qed.

Lemma starts_with_line p :
  ~ In newline p ->
  forall u v, starts_with p (u ++ newline :: v) = starts_with p u.
Proof.
  induction p as [|a p IH]; intros N u v; [now destruct u|].
  destruct u as [|c u]; cbn [app starts_with].
  - destruct (Ascii.eqb_spec a newline) as [->|]; [exfalso; apply N; now left|reflexivity].
  - rewrite IH; [reflexivity|]. intros I. apply N. now right.
Qed.

Lemma starts_with_length p : forall s, starts_with p s = true -> length p <= length s.
Proof.
  induction p as [|a p IH]; intros [|c s] H; cbn [length]; try lia; [discriminate|].
  cbn [starts_with] in H. apply andb_prop in H. destruct H as [_ H].
  apply IH in H. lia.
Qed.

Lemma skipn_within (A : Type) n (u w : list A) :
  n <= length u -> skipn n (u ++ w) = skipn n u ++ w.
Proof.
  intros L. rewrite skipn_app. replace (n - length u) with 0 by lia. reflexivity.
Qed.

Lemma m_line_line p u v :
  ~ In newline p -> m_line p (u ++ newline :: v) = m_line p u.
Proof.
  intros N. unfold m_line. rewrite starts_with_line by exact N.
  destruct (starts_with p u) eqn:E; [|reflexivity].
  rewrite skipn_within by (apply starts_with_length; exact E).
  now rewrite line_len_line.
Qed.

Lemma m_line_within p c u n :
  m_line p (c :: u) = Some (S n) -> n <= length u.
Proof.
  unfold m_line. destruct (starts_with p (c :: u)) eqn:E; [|discriminate].
  intros H. injection H as H. apply starts_with_length in E.
  pose proof (line_len_le (skipn (length p) (c :: u))) as L.
  rewrite length_skipn in L. cbn [length] in *. lia.
Qed.

(** A line comment ends with its line: the lines of a text are stripped
    of their comments one by one. *)
Lemma line_local a marker :
  a <> newline -> ~ In newline marker ->
  forall u v,
    re_sub (m_line (a :: marker)) [] 0 (u ++ newline :: v)
    = re_sub (m_line (a :: marker)) [] 0 u
      ++ newline :: re_sub (m_line (a :: marker)) [] 0 v.
Proof.
  intros A M.
  assert (N : ~ In newline (a :: marker)) by (intros [E|I]; [congruence | exact (M I)]).
  intros u v. revert u.
  apply (text_strong_ind
           (fun u => re_sub (m_line (a :: marker)) [] 0 (u ++ newline :: v)
                     = re_sub (m_line (a :: marker)) [] 0 u
                       ++ newline :: re_sub (m_line (a :: marker)) [] 0 v)).
  intros u IH. destruct u as [|c u].
  - cbn [app]. rewrite re_sub_no_match by (apply m_line_other; congruence). reflexivity.
  - pose proof (@m_line_line (a :: marker) (c :: u) v N) as L. cbn [app] in *.
    destruct (m_line (a :: marker) (c :: u)) as [[|n]|] eqn:E.
    + rewrite !re_sub_empty_match by assumption. cbn [app]. f_equal.
      apply IH. apply Nat.lt_succ_diag_r.
    + rewrite re_sub_match with (1 := L), re_sub_match with (1 := E). cbn [app].
      rewrite skipn_within by (eapply m_line_within; exact E).
      apply IH. apply skipn_length_lt.
    + rewrite !re_sub_no_match by assumption. cbn [app]. f_equal.
      apply IH. apply Nat.lt_succ_diag_r.
Qed.

(** A comment that starts a line without a line feed takes all of it. *)
Lemma line_whole p s :
  p <> [] -> starts_with p s = true -> ~ In newline s ->
  re_sub (m_line p) [] 0 s = [].
Proof.
  intros P E N. destruct s as [|c r]; [reflexivity|].
  assert (M : m_line p (c :: r) = Some (S (length r))).
  { unfold m_line. rewrite E. f_equal.
    rewrite line_len_full by (intros I; apply N; eapply In_skipn; exact I).
    rewrite length_skipn. apply starts_with_length in E. cbn [length] in *. lia. }
  rewrite re_sub_match with (1 := M). cbn [app].
  now rewrite skipn_all.
Qed.

Lemma re_sub_no_newline m s :
  ~ In newline s -> ~ In newline (re_sub m [] 0 s).
Proof. intros N I. apply re_sub_In in I. destruct I as [I|[]]. exact (N I). Qed.

(** *** Comments *)

Lemma after_hashes_char c x :
  c <> slash -> c <> dquote -> c <> squote -> c <> backtick ->
  strip_quoted backtick (strip_quoted squote (strip_quoted dquote (strip_blocks (c :: x))))
  = c :: strip_quoted backtick
           (strip_quoted squote (strip_quoted dquote (strip_blocks x))).
Proof.
  intros S D Q B. unfold strip_blocks, strip_quoted.
  rewrite (@re_sub_no_match m_block) by (apply m_block_not_slash; exact S).
  rewrite !quoted_step_other by assumption. reflexivity.
Qed.

Lemma strip_line_comment comment t :
  ~ In newline comment ->
  remove_comments_and_strings (slash :: slash :: comment ++ newline :: t)
  = newline :: remove_comments_and_strings t.
Proof.
  intros N. rewrite !strip_passes.
  assert (E : strip_slashes (slash :: slash :: comment ++ newline :: t)
              = newline :: strip_slashes t).
  { unfold strip_slashes.
    change (slash :: slash :: comment ++ newline :: t)
      with ((slash :: slash :: comment) ++ newline :: t).
    rewrite line_local by (discriminate || (intros [E|[]]; discriminate E)).
    rewrite line_whole; [reflexivity|discriminate|reflexivity|].
    intros [E|[E|I]]; [discriminate E|discriminate E|exact (N I)]. }
  rewrite E. unfold strip_hashes at 1.
  rewrite re_sub_no_match by (apply m_line_other; discriminate).
  fold (strip_hashes (strip_slashes t)).
  apply after_hashes_char; discriminate.
Qed.

Lemma hash_comment_taken comment t :
  ~ In newline comment ->
  strip_hashes (strip_slashes (hash :: comment ++ newline :: t))
  = newline :: strip_hashes (strip_slashes t).
Proof.
  intros N. unfold strip_slashes.
  change (hash :: comment ++ newline :: t) with ((hash :: comment) ++ newline :: t).
  rewrite line_local by (discriminate || (intros [E|[]]; discriminate E)).
  rewrite re_sub_no_match by (apply m_line_other; discriminate).
  unfold strip_hashes. cbn [app].
  change (hash :: re_sub (m_line [slash; slash]) [] 0 comment
               ++ newline :: re_sub (m_line [slash; slash]) [] 0 t)
    with ((hash :: re_sub (m_line [slash; slash]) [] 0 comment)
            ++ newline :: re_sub (m_line [slash; slash]) [] 0 t).
  rewrite line_local by (discriminate || (intros []; discriminate)).
  rewrite line_whole; [reflexivity|discriminate|reflexivity|].
  intros [E|I]; [discriminate E|]. exact (@re_sub_no_newline _ _ N I).
Qed.

Lemma strip_hash_comment comment t :
  ~ In newline comment ->
  remove_comments_and_strings (hash :: comment ++ newline :: t)
  = newline :: remove_comments_and_strings t.
Proof.
  intros N. rewrite !strip_passes, hash_comment_taken by exact N.
  apply after_hashes_char; discriminate.
Qed.

Lemma has_pair_join a b x :
  forall y,
    has_pair a b x = false -> has_pair a b y = false ->
    (last x newline <> a \/ hd_error y <> Some b) ->
    has_pair a b (x ++ y) = false.
Proof.
  induction x as [|c x IH]; intros y X Y J; [exact Y|].
  cbn [app]. rewrite has_pair_unfold. apply orb_false_iff. split.
  - destruct x as [|d x].
    + cbn [app starts_with last] in *.
      destruct (Ascii.eqb_spec a c) as [->|]; [|reflexivity]. cbn [andb].
      destruct y as [|e y]; [reflexivity|]. cbn [hd_error] in J.
      destruct (Ascii.eqb_spec b e) as [->|]; [|reflexivity].
      destruct J as [J|J]; exfalso; apply J; reflexivity.
    + rewrite has_pair_unfold in X. apply orb_false_iff in X. destruct X as [X _].
      cbn [app]. rewrite (starts_with_pair a b c d _ x). exact X.
  - destruct x as [|d x]; [exact Y|].
    apply IH; [eapply has_pair_cons; exact X | exact Y | exact J].
Qed.

Lemma find_pair_end a b content t :
  a <> b -> has_pair a b content = false ->
  find [a; b] (content ++ a :: b :: t) = Some (length content).
Proof.
  intros D. induction content as [|c content IH]; intros P.
  - cbn [app find starts_with]. now rewrite !Ascii.eqb_refl.
  - assert (N : starts_with [a; b] (c :: content ++ a :: b :: t) = false).
    { destruct content as [|d content].
      - cbn [app starts_with]. destruct (Ascii.eqb_spec b a); [congruence|].
        now rewrite andb_false_r.
      - rewrite has_pair_unfold in P. apply orb_false_iff in P. destruct P as [P _].
        cbn [app]. rewrite (starts_with_pair a b c d _ content). exact P. }
    cbn [app find]. rewrite N.
    rewrite IH by (eapply has_pair_cons; exact P). reflexivity.
Qed.

Lemma skipn_beyond (A : Type) (l w : list A) k :
  skipn (length l + k) (l ++ w) = skipn k w.
Proof.
  rewrite skipn_app, skipn_all2 by lia.
  replace (length l + k - length l) with k by lia. reflexivity.
Qed.

Lemma strip_block_comment content t :
  block_content content = true ->
  hd_error t <> Some slash ->
  remove_comments_and_strings (slash :: star :: content ++ star :: slash :: t)
  = remove_comments_and_strings t.
Proof.
  intros C J. unfold block_content in C.
  apply andb_prop in C. destruct C as [C Sl]. apply andb_prop in C. destruct C as [E H].
  apply negb_true_iff in Sl, E, H.
  rewrite !strip_passes.
  assert (A : slash :: star :: content ++ star :: slash :: t
              = (slash :: star :: content ++ [star; slash]) ++ t)
    by (cbn [app]; now rewrite <- app_assoc).
  rewrite A.
  rewrite slashes_through.
  - rewrite hashes_through.
    + cbn [app]. rewrite <- app_assoc. cbn [app]. unfold strip_blocks at 1.
      rewrite re_sub_match with (n := S (length content + 2)).
      * cbn [app skipn]. rewrite skipn_beyond. reflexivity.
      * unfold m_block. cbn [starts_with skipn]. rewrite !Ascii.eqb_refl. cbn [andb].
        rewrite find_pair_end by (discriminate || exact E). reflexivity.
    + unfold holds in *. cbn [existsb]. rewrite existsb_app.
      cbn [existsb]. rewrite H. reflexivity.
  - rewrite has_pair_unfold. cbn [starts_with].
    rewrite has_pair_other by discriminate.
    apply has_pair_join; [exact Sl | reflexivity | right; discriminate].
  - right. exact J.
Qed.

(** *** Literals *)

Lemma literal_taken q content t :
  holds q content = false ->
  strip_quoted q (literal q content ++ t) = q :: q :: strip_quoted q t.
Proof.
  intros H. apply holds_In in H. unfold strip_quoted, literal.
  cbn [app]. rewrite <- app_assoc. cbn [app].
  rewrite quoted_step_closed with (j := length content) by (apply find_char_app; exact H).
  now rewrite skipn_past.
Qed.

Lemma last_literal q content d : last (literal q content) d = q.
Proof.
  unfold literal. change (q :: content ++ [q]) with ((q :: content) ++ [q]).
  apply last_last.
Qed.

Lemma holds_literal c q content :
  c <> q -> holds c content = false -> holds c (literal q content) = false.
Proof.
  intros N H. unfold holds, literal in *. cbn [existsb].
  rewrite existsb_app, H. cbn [existsb].
  destruct (Ascii.eqb_spec c q); [contradiction|reflexivity].
Qed.

Lemma has_pair_literal a b q content :
  q <> a -> q <> b -> a <> newline ->
  has_pair a b content = false -> has_pair a b (literal q content) = false.
Proof.
  intros A B N H. unfold literal. rewrite has_pair_other by exact A.
  apply has_pair_join; [exact H | reflexivity|].
  right. cbn [hd_error]. congruence.
Qed.

Lemma literal_content_parts q content :
  literal_content q content = true ->
  holds q content = false /\ holds hash content = false
  /\ has_pair slash slash content = false /\ has_pair slash star content = false
  /\ forallb (fun e => negb (holds e content)) (earlier_quotes q) = true.
Proof.
  unfold literal_content. intros H.
  repeat (apply andb_prop in H; destruct H as [H ?]).
  repeat split; try (now apply negb_true_iff); assumption.
Qed.

Lemma quoted_twice q c x :
  c <> q -> strip_quoted q (c :: c :: x) = c :: c :: strip_quoted q x.
Proof. intros N. unfold strip_quoted. now rewrite !quoted_step_other. Qed.

Lemma strip_literal q content t :
  In q quotes -> literal_content q content = true ->
  remove_comments_and_strings (literal q content ++ t)
  = q :: q :: remove_comments_and_strings t.
Proof.
  intros Q C. destruct (literal_content_parts _ _ C) as [Hq [Hh [Hs [Hb He]]]].
  rewrite !strip_passes.
  assert (Through : forall q,
             In q quotes ->
             holds q content = false -> holds hash content = false ->
             has_pair slash slash content = false -> has_pair slash star content = false ->
             strip_blocks (strip_hashes (strip_slashes (literal q content ++ t)))
             = literal q content ++ strip_blocks (strip_hashes (strip_slashes t))).
  { clear. intros q Q Hq Hh Hs Hb.
    assert (N : q <> slash /\ q <> star /\ q <> hash).
    { unfold quotes in Q. cbn [In] in Q.
      destruct Q as [<-|[<-|[<-|[]]]]; repeat split; discriminate. }
    destruct N as [N1 [N2 N3]].
    rewrite slashes_through
      by (try (apply has_pair_literal; (assumption || discriminate));
          left; rewrite last_literal; exact N1).
    rewrite hashes_through by (apply holds_literal; [congruence | exact Hh]).
    rewrite blocks_through
      by (try (apply has_pair_literal; (assumption || discriminate));
          left; rewrite last_literal; exact N1).
    reflexivity. }
  rewrite (Through q Q Hq Hh Hs Hb). clear Through.
  unfold quotes in Q. cbn [In] in Q. destruct Q as [<-|[<-|[<-|[]]]].
  - rewrite literal_taken by exact Hq.
    now rewrite !quoted_twice by discriminate.
  - change (earlier_quotes squote) with [dquote] in He. cbn [forallb] in He.
    rewrite andb_true_r in He. apply negb_true_iff in He.
    rewrite (@quoted_through dquote) by (apply holds_literal; [discriminate | exact He]).
    rewrite literal_taken by exact Hq.
    now rewrite !quoted_twice by discriminate.
  - change (earlier_quotes backtick) with [dquote; squote] in He. cbn [forallb] in He.
    rewrite andb_true_r in He. apply andb_prop in He. destruct He as [H1 H2].
    apply negb_true_iff in H1, H2.
    rewrite (@quoted_through dquote) by (apply holds_literal; [discriminate | exact H1]).
    rewrite (@quoted_through squote) by (apply holds_literal; [discriminate | exact H2]).
    now rewrite literal_taken by exact Hq.
Qed.

(** *** Texts made of complete comments and literals *)

Lemma last_after (A : Type) (x p : list A) d : p <> [] -> last (x ++ p) d = last p d.
Proof.
  intros N. induction x as [|c x IH]; [reflexivity|].
  cbn [app]. destruct (x ++ p) eqn:E; [|exact IH].
  apply app_eq_nil in E. destruct E as [_ E]. contradiction.
Qed.

Lemma hd_error_first (A : Type) (p t : list A) : p <> [] -> hd_error (p ++ t) = hd_error p.
Proof. destruct p; [contradiction|reflexivity]. Qed.

(** The stripping of a text made of complete comments and literals does
    not depend on what follows it, nor does the stripping of what follows
    depend on it. *)
Lemma strip_lexed prefix :
  lexed prefix ->
  forall t,
    (last prefix newline = slash -> hd_error t <> Some slash /\ hd_error t <> Some star) ->
    remove_comments_and_strings (prefix ++ t)
    = remove_comments_and_strings prefix ++ remove_comments_and_strings t.
Proof.
  assert (Tail : forall (x p t : text),
             (last (x ++ p) newline = slash ->
              hd_error t <> Some slash /\ hd_error t <> Some star) ->
             last p newline = slash ->
             hd_error t <> Some slash /\ hd_error t <> Some star).
  { intros x p t J E. destruct p as [|c p]; [discriminate E|].
    apply J. rewrite last_after by discriminate. exact E. }
  assert (Next : forall (x p t : text) (c : ascii),
             last x newline = slash ->
             (last (x ++ p) newline = slash ->
              hd_error t <> Some slash /\ hd_error t <> Some star) ->
             (hd_error p <> Some c) ->
             (c = slash \/ c = star) ->
             hd_error (p ++ t) <> Some c).
  { intros x p t c X J H C. destruct p as [|d p]; [|exact H].
    rewrite app_nil_r in J. cbn [app]. destruct (J X) as [J1 J2].
    destruct C as [-> | ->]; assumption. }
  induction 1 as [|c p O L IH|p H1 H2 L IH|comment p N L IH|comment p N L IH
                  |content p C H1 L IH|q content p Q C L IH]; intros t J.
  - reflexivity.
  - cbn [app]. rewrite !strip_char by exact O. cbn [app]. f_equal.
    apply IH. exact (Tail [c] p t J).
  - cbn [app].
    rewrite (@strip_slash (p ++ t)), (@strip_slash p); try assumption.
    + cbn [app]. f_equal. apply IH. exact (Tail [slash] p t J).
    + apply (Next [slash] p t slash eq_refl J H1). now left.
    + apply (Next [slash] p t star eq_refl J H2). now right.
  - assert (E : (slash :: slash :: comment ++ newline :: p) ++ t
                = slash :: slash :: comment ++ newline :: (p ++ t))
      by (cbn [app]; now rewrite <- app_assoc).
    rewrite E, !strip_line_comment by exact N. cbn [app]. f_equal.
    apply IH. apply (Tail (slash :: slash :: comment ++ [newline]) p t).
    cbn [app]. rewrite <- app_assoc. exact J.
  - assert (E : (hash :: comment ++ newline :: p) ++ t
                = hash :: comment ++ newline :: (p ++ t))
      by (cbn [app]; now rewrite <- app_assoc).
    rewrite E, !strip_hash_comment by exact N. cbn [app]. f_equal.
    apply IH. apply (Tail (hash :: comment ++ [newline]) p t).
    cbn [app]. rewrite <- app_assoc. exact J.
  - assert (E : (slash :: star :: content ++ star :: slash :: p) ++ t
                = slash :: star :: content ++ star :: slash :: (p ++ t))
      by (cbn [app]; now rewrite <- app_assoc).
    assert (J' : last ((slash :: star :: content ++ [star; slash]) ++ p) newline = slash ->
                 hd_error t <> Some slash /\ hd_error t <> Some star).
    { cbn [app]. rewrite <- app_assoc. exact J. }
    rewrite E, (@strip_block_comment content (p ++ t)), (@strip_block_comment content p);
      try assumption.
    + apply IH. exact (Tail _ p t J').
    + apply (Next (slash :: star :: content ++ [star; slash]) p t slash); auto.
      change (slash :: star :: content ++ [star; slash])
        with ((slash :: star :: content) ++ [star; slash]).
      now rewrite last_after by discriminate.
  - rewrite <- app_assoc, !strip_literal by assumption. cbn [app]. do 2 f_equal.
    apply IH. exact (Tail (literal q content) p t J).
Qed.

(** The last character of such a text, when it is no slash, is the last
    character of the stripped text. *)
Lemma strip_lexed_last prefix :
  lexed prefix -> prefix <> [] -> last prefix newline <> slash ->
  exists s, remove_comments_and_strings prefix = s ++ [last prefix newline].
Proof.
  induction 1 as [|c p O L IH|p H1 H2 L IH|comment p N L IH|comment p N L IH
                  |content p C H1 L IH|q content p Q C L IH]; intros E S.
  - contradiction.
  - rewrite strip_char by exact O. destruct p as [|d p]; [now exists []|].
    destruct IH as [s IH]; [discriminate | exact S|].
    exists (c :: s). rewrite IH. reflexivity.
  - rewrite strip_slash by assumption.
    destruct p as [|d p]; [exfalso; apply S; reflexivity|].
    destruct IH as [s IH]; [discriminate | exact S|].
    exists (slash :: s). rewrite IH. reflexivity.
  - rewrite strip_line_comment by exact N. destruct p as [|d p].
    + exists []. change (slash :: slash :: comment ++ [newline])
        with ((slash :: slash :: comment) ++ [newline]).
      now rewrite last_last.
    + change (slash :: slash :: comment ++ newline :: d :: p)
        with ((slash :: slash :: comment) ++ newline :: d :: p) in *.
      change (newline :: d :: p) with ([newline] ++ d :: p) in *.
      rewrite !last_after in * by discriminate.
      destruct IH as [s IH]; [discriminate | exact S|].
      exists (newline :: s). rewrite IH. reflexivity.
  - rewrite strip_hash_comment by exact N. destruct p as [|d p].
    + exists []. change (hash :: comment ++ [newline])
        with ((hash :: comment) ++ [newline]).
      now rewrite last_last.
    + change (hash :: comment ++ newline :: d :: p)
        with ((hash :: comment) ++ newline :: d :: p) in *.
      change (newline :: d :: p) with ([newline] ++ d :: p) in *.
      rewrite !last_after in * by discriminate.
      destruct IH as [s IH]; [discriminate | exact S|].
      exists (newline :: s). rewrite IH. reflexivity.
  - rewrite strip_block_comment by assumption.
    change (slash :: star :: content ++ star :: slash :: p)
      with ((slash :: star :: content) ++ star :: slash :: p) in *.
    destruct p as [|d p].
    + exfalso. apply S. now rewrite last_after by discriminate.
    + change (star :: slash :: d :: p) with ([star; slash] ++ d :: p) in *.
      rewrite !last_after in * by discriminate.
      apply IH; [discriminate | exact S].
  - rewrite strip_literal by assumption. destruct p as [|d p].
    + exists [q]. rewrite app_nil_r, last_literal. reflexivity.
    + rewrite last_after in * by discriminate.
      destruct IH as [s IH]; [discriminate | exact S|].
      exists (q :: q :: s). rewrite IH. reflexivity.
Qed.

Lemma hashes_hd_kept t :
  hd_error t <> Some hash -> hd_error (strip_hashes t) = hd_error t.
Proof.
  destruct t as [|c r]; [reflexivity|]. cbn [hd_error]. intros N.
  unfold strip_hashes. rewrite re_sub_no_match; [reflexivity|].
  apply m_line_other. congruence.
Qed.

Lemma blocks_hd_kept t :
  hd_error t <> Some slash -> hd_error (strip_blocks t) = hd_error t.
Proof.
  destruct t as [|c r]; [reflexivity|]. cbn [hd_error]. intros N.
  unfold strip_blocks. rewrite re_sub_no_match; [reflexivity|].
  apply m_block_not_slash. congruence.
Qed.

(** The first character of a text, when it starts no comment, is the first
    character of the stripped text. *)
Lemma strip_hd t :
  hd_error t <> Some slash -> hd_error t <> Some hash ->
  hd_error (remove_comments_and_strings t) = hd_error t.
Proof.
  intros S H. rewrite strip_passes. unfold strip_quoted. rewrite !quoted_hd.
  assert (E : hd_error (strip_hashes (strip_slashes t)) = hd_error t).
  { rewrite hashes_hd_kept; rewrite slashes_hd by exact S; [reflexivity | exact H]. }
  rewrite blocks_hd_kept; rewrite E; [reflexivity | exact S].
Qed.

(** *** A literal between two tokens *)

Section Junction.

(** A pattern of the scan, the quote [q] of a literal, the character [a]
    before the literal if there is one, and the text [sr] after it. *)
Variable m : option ascii -> text -> option nat.
Variable q : ascii.
Variable a : option ascii.
Variable sr : text.

Hypothesis quote_inert : forall prev r, m prev (q :: r) = None.
Hypothesis across :
  forall prev x, x <> [] -> Some (last x newline) = a ->
                 m prev (x ++ q :: q :: sr) = m prev (x ++ sr).
Hypothesis within :
  forall prev x n, x <> [] -> Some (last x newline) = a ->
                   m prev (x ++ sr) = Some n -> n <= length x.
Hypothesis behind : m a sr = m (Some q) sr.

(** The matches of the text with the empty literal are those of the text
    without it. *)
Lemma findall_junction x :
  forall prev pending,
    pending <= length x ->
    match x with
    | [] => prev = a
    | _ :: _ => Some (last x newline) = a
    end ->
    re_findall m prev pending (x ++ q :: q :: sr) = re_findall m prev pending (x ++ sr).
Proof.
  induction x as [|c x IH]; intros prev pending L I.
  - cbn [length] in L. replace pending with 0 by lia. subst prev.
    cbn [app re_findall]. rewrite !quote_inert.
    destruct sr as [|b r]; [reflexivity|]. cbn [re_findall]. now rewrite behind.
  - assert (I' : match x with
                 | [] => Some c = a
                 | _ :: _ => Some (last x newline) = a
                 end).
    { destruct x as [|d x]; exact I. }
    cbn [length] in L. cbn [app re_findall].
    destruct pending as [|k]; [|apply IH; [lia | exact I']].
    change (c :: x ++ q :: q :: sr) with ((c :: x) ++ q :: q :: sr).
    change (c :: x ++ sr) with ((c :: x) ++ sr).
    rewrite across by (discriminate || exact I).
    destruct (m prev ((c :: x) ++ sr)) as [[|n]|] eqn:E;
      try (apply IH; [lia | exact I']).
    apply within in E; [|discriminate | exact I]. cbn [length] in E.
    rewrite !firstn_app. replace (S n - length (c :: x)) with 0 by (cbn [length]; lia).
    cbn [firstn]. f_equal. apply IH; [lia | exact I'].
Qed.

End Junction.

(** *** Literals of a pattern across the junction *)

Lemma starts_with_ci_within l :
  forall x t, length l <= length x -> starts_with_ci l (x ++ t) = starts_with_ci l x.
Proof.
  induction l as [|y l IH]; intros x t L; [now destruct x, t|].
  destruct x as [|c x]; [cbn [length] in L; lia|].
  cbn [app starts_with_ci]. rewrite IH by (cbn [length] in L; lia). reflexivity.
Qed.

Lemma starts_with_ci_blocked l q :
  (forall y, In y l -> py_lower y <> py_lower q) ->
  forall x t, length x < length l -> starts_with_ci l (x ++ q :: t) = false.
Proof.
  intros Q. induction l as [|y l IH]; intros x t L; [cbn [length] in L; lia|].
  destruct x as [|c x].
  - cbn [app]. apply starts_with_ci_other. apply Q. now left.
  - cbn [app starts_with_ci]. rewrite IH; [apply andb_false_r| |cbn [length] in L; lia].
    intros z I. apply Q. now right.
Qed.

Lemma adjacent_cons a b y l : adjacent a b (y :: l) = false -> adjacent a b l = false.
Proof. unfold adjacent, lower. cbn [map]. apply has_pair_cons. Qed.

(** A literal that starts before the junction and ends after it holds the
    two characters of the junction next to each other. *)
Lemma starts_with_ci_straddle l :
  forall x sr,
    x <> [] -> length x < length l ->
    (forall b, hd_error sr = Some b -> adjacent (last x newline) b l = false) ->
    starts_with_ci l (x ++ sr) = false.
Proof.
  induction l as [|y l IH]; intros x sr N L A; [cbn [length] in L; lia|].
  destruct x as [|c x]; [contradiction|]. cbn [app starts_with_ci].
  destruct x as [|d x].
  - cbn [app]. destruct l as [|y' l]; [cbn [length] in L; lia|].
    destruct sr as [|b r]; [apply andb_false_r|].
    specialize (A b eq_refl). unfold adjacent, lower in A. cbn [map last] in A.
    rewrite has_pair_unfold in A. apply orb_false_iff in A. destruct A as [A _].
    cbn [starts_with] in A. cbn [starts_with_ci].
    rewrite (Ascii.eqb_sym (py_lower c)), (Ascii.eqb_sym (py_lower b)) in A.
    rewrite andb_true_r in A.
    destruct (Ascii.eqb (py_lower y) (py_lower c)); [|reflexivity].
    cbn [andb] in *. rewrite A. reflexivity.
  - rewrite (IH (d :: x) sr); [apply andb_false_r|discriminate|cbn [length] in *; lia|].
    intros b Hb. eapply adjacent_cons. exact (A b Hb).
Qed.

Lemma starts_with_ci_length l : forall s, starts_with_ci l s = true -> length l <= length s.
Proof.
  induction l as [|y l IH]; intros [|c s] H; cbn [length]; try lia; [discriminate|].
  cbn [starts_with_ci] in H. apply andb_prop in H. destruct H as [_ H].
  apply IH in H. lia.
Qed.

Section Literal.

Variable l : text.
Variable q : ascii.
Variables (x sr : text).
Hypothesis blocked : forall y, In y l -> py_lower y <> py_lower q.
Hypothesis nonempty : x <> [].
Hypothesis apart :
  forall b, hd_error sr = Some b -> adjacent (last x newline) b l = false.

Lemma literal_within : starts_with_ci l (x ++ sr) = true -> length l <= length x.
Proof.
  intros H. destruct (Nat.le_gt_cases (length l) (length x)) as [L|L]; [exact L|].
  rewrite starts_with_ci_straddle in H by assumption. discriminate.
Qed.

Lemma literal_across :
  starts_with_ci l (x ++ q :: q :: sr) = starts_with_ci l (x ++ sr).
Proof.
  destruct (Nat.le_gt_cases (length l) (length x)) as [L|L].
  - now rewrite !starts_with_ci_within by exact L.
  - rewrite starts_with_ci_blocked by assumption.
    now rewrite starts_with_ci_straddle by assumption.
Qed.

End Literal.

(** *** The patterns of the count across the junction *)

Lemma starts_with_ci_last k :
  forall x t,
    k <> [] -> length k = length x -> starts_with_ci k (x ++ t) = true ->
    py_lower (last k newline) = py_lower (last x newline).
Proof.
  induction k as [|y k IH]; intros x t N L H; [contradiction|].
  destruct x as [|c x]; [discriminate|].
  cbn [app starts_with_ci] in H. apply andb_prop in H. destruct H as [H1 H2].
  destruct k as [|y' k].
  - destruct x; [|discriminate]. cbn [last]. now apply Ascii.eqb_eq.
  - destruct x as [|c' x]; [discriminate|].
    change (last (y :: y' :: k) newline) with (last (y' :: k) newline).
    change (last (c :: c' :: x) newline) with (last (c' :: x) newline).
    apply (IH (c' :: x) t); [discriminate| |exact H2]. cbn [length] in *. lia.
Qed.

Section WordJunction.

Variable keyword : text.
Variable q : ascii.
Variable a : option ascii.
Variable sr : text.

Hypothesis keyword_nonempty : keyword <> [].
Hypothesis keyword_first : is_word (hd newline keyword) = true.
Hypothesis keyword_last : is_word (last keyword newline) = true.
Hypothesis blocked : forall y, In y keyword -> py_lower y <> py_lower q.
Hypothesis quote_not_word : is_word q = false.
Hypothesis not_both : word_char a && word_char (hd_error sr) = false.
Hypothesis apart :
  forall a' b, a = Some a' -> hd_error sr = Some b -> adjacent a' b keyword = false.

Lemma word_quote_inert prev r : m_pattern (Word keyword) prev (q :: r) = None.
Proof.
  unfold m_pattern. destruct keyword as [|y k]; [contradiction|].
  rewrite starts_with_ci_other by (apply blocked; now left).
  now rewrite andb_false_r.
Qed.

Lemma word_within prev x n :
  x <> [] -> Some (last x newline) = a ->
  m_pattern (Word keyword) prev (x ++ sr) = Some n -> n <= length x.
Proof.
  intros N I H. unfold m_pattern in H.
  destruct (starts_with_ci keyword (x ++ sr)) eqn:E.
  - apply literal_within in E; [|exact N|intros b Hb; now apply apart].
    destruct (at_boundary prev (hd_error (x ++ sr)) && true && _) in H; [|discriminate].
    injection H as <-. exact E.
  - rewrite andb_false_r in H. discriminate.
Qed.

Lemma word_across prev x :
  x <> [] -> Some (last x newline) = a ->
  m_pattern (Word keyword) prev (x ++ q :: q :: sr)
  = m_pattern (Word keyword) prev (x ++ sr).
Proof.
  intros N I. unfold m_pattern.
  rewrite (@literal_across keyword q x sr blocked N)
    by (intros b Hb; now apply apart).
  rewrite !hd_error_first by exact N.
  destruct (starts_with_ci keyword (x ++ sr)) eqn:E;
    [|now rewrite !andb_false_r].
  pose proof E as L. apply literal_within in L; [|exact N|intros b Hb; now apply apart].
  destruct (length keyword) as [|n] eqn:K;
    [destruct keyword; [contradiction|discriminate]|].
  unfold char_before. rewrite !(@nth_error_app1 _ x _ n) by lia.
  destruct (Nat.eq_dec (S n) (length x)) as [F|F].
  - rewrite !nth_error_app2 by lia. replace (S n - length x) with 0 by lia.
    cbn [nth_error].
    assert (W : word_char a = true).
    { rewrite <- I. cbn [word_char]. rewrite <- is_word_lower.
      rewrite <- (@starts_with_ci_last keyword x sr keyword_nonempty) by (lia || exact E).
      rewrite is_word_lower. exact keyword_last. }
    rewrite W in not_both. cbn [andb] in not_both.
    replace (nth_error sr 0) with (hd_error sr) by now destruct sr.
    replace (at_boundary (nth_error x n) (Some q))
      with (at_boundary (nth_error x n) (hd_error sr)); [reflexivity|].
    unfold at_boundary. cbn [word_char]. now rewrite quote_not_word, not_both.
  - rewrite !(@nth_error_app1 _ x) by lia. reflexivity.
Qed.

Lemma word_behind : m_pattern (Word keyword) a sr = m_pattern (Word keyword) (Some q) sr.
Proof.
  destruct (word_char a) eqn:W.
  - cbn [andb] in not_both. unfold m_pattern.
    destruct keyword as [|y k]; [contradiction|]. destruct sr as [|b r].
    + cbn [starts_with_ci]. now rewrite !andb_false_r.
    + cbn [hd_error word_char] in not_both. cbn [hd] in keyword_first.
      rewrite starts_with_ci_other; [now rewrite !andb_false_r|].
      intros E. rewrite <- is_word_lower, E, is_word_lower in keyword_first. congruence.
  - apply m_pattern_prev. cbn [word_char]. congruence.
Qed.

Lemma findall_word x prev pending :
  pending <= length x ->
  match x with
  | [] => prev = a
  | _ :: _ => Some (last x newline) = a
  end ->
  re_findall (m_pattern (Word keyword)) prev pending (x ++ q :: q :: sr)
  = re_findall (m_pattern (Word keyword)) prev pending (x ++ sr).
Proof.
  apply findall_junction with (a := a).
  - exact word_quote_inert.
  - exact word_across.
  - exact word_within.
  - exact word_behind.
Qed.

End WordJunction.

(** The operators hold no letter: ignoring case changes nothing. *)
Lemma operator_char x c :
  In x (T "&|?=>") -> Ascii.eqb (py_lower x) (py_lower c) = Ascii.eqb x c.
Proof.
  intros [<-|[<-|[<-|[<-|[<-|[]]]]]]; each_char c.
Qed.

Lemma starts_with_operator l :
  (forall x, In x l -> In x (T "&|?=>")) ->
  forall s, starts_with l s = starts_with_ci l s.
Proof.
  induction l as [|y l IH]; intros O s; [reflexivity|].
  destruct s as [|c s]; [reflexivity|]. cbn [starts_with starts_with_ci].
  rewrite operator_char by (apply O; now left).
  rewrite IH; [reflexivity|]. intros x I. apply O. now right.
Qed.

Lemma operator_blocked l q y :
  In l [T "&&"; T "||"; T "?"; T "=>"] -> In q quotes -> In y l -> py_lower y <> py_lower q.
Proof.
  intros L Q Y. cbn in L, Q.
  repeat (destruct L as [<-|L]; [|]); try contradiction;
    repeat (destruct Q as [<-|Q]; [|]); try contradiction;
    cbn in Y; repeat (destruct Y as [<-|Y]; [|]); try contradiction; discriminate.
Qed.

Section OperatorJunction.

Variable p : pattern.
Variable q : ascii.
Variable a : option ascii.
Variable sr : text.

Hypothesis operator : In p [AndOr; Question; Arrow].
Hypothesis quote : In q quotes.
Hypothesis apart :
  forall l a' b, In l (literals p) -> a = Some a' -> hd_error sr = Some b ->
                 adjacent a' b l = false.

Ltac operators :=
  let O := fresh in
  pose proof operator as O; cbn [In] in O;
  destruct O as [<-|[<-|[<-|[]]]]; unfold m_pattern;
  rewrite !starts_with_operator
    by (intros ?; cbn [T list_ascii_of_string In]; tauto).

Ltac literal lit := apply (@operator_blocked lit); [cbn [In]; tauto | exact quote].

Lemma operator_quote_inert prev r : m_pattern p prev (q :: r) = None.
Proof.
  pose proof quote as Q. cbn [quotes In] in Q.
  destruct Q as [<-|[<-|[<-|[]]]]; operators; reflexivity.
Qed.

Lemma operator_across prev x :
  x <> [] -> Some (last x newline) = a ->
  m_pattern p prev (x ++ q :: q :: sr) = m_pattern p prev (x ++ sr).
Proof.
  intros N I. operators.
  - rewrite !(@literal_across _ q x sr); try exact N; try reflexivity;
      try (intros b Hb; apply apart; [cbn [literals In]; tauto | now symmetry | exact Hb]).
    + intros y; literal (T "||").
    + intros y; literal (T "&&").
  - rewrite !(@literal_across _ q x sr); try exact N; try reflexivity;
      try (intros b Hb; apply apart; [cbn [literals In]; tauto | now symmetry | exact Hb]).
    intros y; literal (T "?").
  - rewrite !(@literal_across _ q x sr); try exact N; try reflexivity;
      try (intros b Hb; apply apart; [cbn [literals In]; tauto | now symmetry | exact Hb]).
    intros y; literal (T "=>").
Qed.

Lemma operator_within prev x n :
  x <> [] -> Some (last x newline) = a -> m_pattern p prev (x ++ sr) = Some n ->
  n <= length x.
Proof.
  intros N I. operators; intros H.
  - destruct (starts_with_ci (T "&&") (x ++ sr)) eqn:E1;
      [|destruct (starts_with_ci (T "||") (x ++ sr)) eqn:E2; [|discriminate]].
    + injection H as <-. apply literal_within in E1; [exact E1|exact N|].
      intros b Hb; apply apart; [cbn [literals In]; tauto | now symmetry | exact Hb].
    + injection H as <-. apply literal_within in E2; [exact E2|exact N|].
      intros b Hb; apply apart; [cbn [literals In]; tauto | now symmetry | exact Hb].
  - destruct (starts_with_ci (T "?") (x ++ sr)) eqn:E1; [|discriminate].
    injection H as <-. apply literal_within in E1; [exact E1|exact N|].
    intros b Hb; apply apart; [cbn [literals In]; tauto | now symmetry | exact Hb].
  - destruct (starts_with_ci (T "=>") (x ++ sr)) eqn:E1; [|discriminate].
    injection H as <-. apply literal_within in E1; [exact E1|exact N|].
    intros b Hb; apply apart; [cbn [literals In]; tauto | now symmetry | exact Hb].
Qed.

Lemma operator_behind : m_pattern p a sr = m_pattern p (Some q) sr.
Proof.
  pose proof operator as O. cbn [In] in O. now destruct O as [<-|[<-|[<-|[]]]].
Qed.

Lemma findall_operator x prev pending :
  pending <= length x ->
  match x with
  | [] => prev = a
  | _ :: _ => Some (last x newline) = a
  end ->
  re_findall (m_pattern p) prev pending (x ++ q :: q :: sr)
  = re_findall (m_pattern p) prev pending (x ++ sr).
Proof.
  apply findall_junction with (a := a).
  - exact operator_quote_inert.
  - exact operator_across.
  - exact operator_within.
  - exact operator_behind.
Qed.

End OperatorJunction.

(** *** The keywords of the rule sets *)

Lemma rule_sets_tame keywords keyword :
  In keywords rule_sets -> In keyword keywords -> tame keyword = true.
Proof.
  intros R K.
  assert (A : forallb (forallb tame) rule_sets = true) by (vm_compute; reflexivity).
  rewrite forallb_forall in A. specialize (A keywords R).
  rewrite forallb_forall in A. exact (A keyword K).
Qed.

(** Every rule set lists [&&] and [||]. *)
Lemma rule_sets_and_or keywords :
  In keywords rule_sets -> In (T "&&") keywords /\ In (T "||") keywords.
Proof.
  intros R.
  assert (A : forallb (fun keywords => In_b (T "&&") keywords && In_b (T "||") keywords)
                      rule_sets = true) by (vm_compute; reflexivity).
  rewrite forallb_forall in A. specialize (A keywords R).
  apply andb_prop in A. destruct A as [A1 A2]. split; now apply In_b_spec.
Qed.

Lemma quotes_not_word q : In q quotes -> is_word q = false.
Proof. intros [<-|[<-|[<-|[]]]]; reflexivity. Qed.

Lemma keyword_pattern_cases keyword :
  (keyword_pattern keyword = Word keyword /\ is_operator keyword = false)
  \/ (In (keyword_pattern keyword) [AndOr; Question; Arrow]
      /\ forall l, In l (literals (keyword_pattern keyword)) ->
                   l = keyword \/ (l = T "&&" \/ l = T "||") /\ In_b keyword [T "&&"; T "||"] = true).
Proof.
  unfold keyword_pattern.
  destruct (In_b keyword [T "&&"; T "||"]) eqn:A.
  { right. split; [now left|]. intros l [<-|[<-|[]]]; right; tauto. }
  destruct (text_eqb keyword (T "?")) eqn:Q.
  { right. apply text_eqb_eq in Q. subst keyword. split; [right; now left|].
    intros l [<-|[]]. now left. }
  destruct (text_eqb keyword (T "=>")) eqn:W.
  { right. apply text_eqb_eq in W. subst keyword. split; [right; right; now left|].
    intros l [<-|[]]. now left. }
  left. split; [reflexivity|]. unfold is_operator, In_b in *. cbn [existsb] in *.
  rewrite Q, W. apply orb_false_iff in A. destruct A as [-> A].
  apply orb_false_iff in A. destruct A as [-> _]. reflexivity.
Qed.

(** The matches of a keyword of a rule set do not change when an empty
    literal is put between two characters that are not both word
    characters and that no keyword of the rule set holds side by side. *)
Lemma matches_junction keywords keyword q x sr :
  In keywords rule_sets -> In keyword keywords -> In q quotes ->
  word_char (before x) && word_char (hd_error sr) = false ->
  (forall l a b, In l keywords -> before x = Some a -> hd_error sr = Some b ->
                 adjacent a b l = false) ->
  matches keyword (x ++ q :: q :: sr) = matches keyword (x ++ sr).
Proof.
  intros R K Q W A. unfold matches.
  assert (I : match x with
              | [] => None = before x
              | _ :: _ => Some (last x newline) = before x
              end) by now destruct x.
  destruct (keyword_pattern_cases keyword) as [[-> O]|[O L]].
  - pose proof (rule_sets_tame _ R K) as M. unfold tame in M. rewrite O in M.
    cbn [orb] in M. apply andb_prop in M. destruct M as [M M4].
    apply andb_prop in M. destruct M as [M M3].
    apply andb_prop in M. destruct M as [M1 M2].
    apply findall_word with (a := before x); try assumption; try lia.
    + intros E. subst keyword. discriminate M1.
    + intros y Y E. rewrite forallb_forall in M4. specialize (M4 y Y).
      rewrite forallb_forall in M4. specialize (M4 q Q).
      rewrite E, Ascii.eqb_refl in M4. discriminate M4.
    + now apply quotes_not_word.
    + intros a b. now apply A.
  - apply findall_operator with (a := before x); try assumption; try lia.
    intros l a b E. apply A. destruct (L l E) as [->|[[->| ->] _]]; [exact K| |];
      now apply rule_sets_and_or.
Qed.

Lemma count_ext_in keywords s1 s2 :
  (forall keyword, In keyword keywords ->
                   matches keyword (remove_comments_and_strings s1)
                   = matches keyword (remove_comments_and_strings s2)) ->
  count_complexity_keywords s1 keywords = count_complexity_keywords s2 keywords.
Proof.
  intros H. rewrite !count_complexity_keywords_total. do 2 f_equal.
  apply map_ext_in. intros keyword I. now rewrite H.
Qed.

Lemma count_stripped keywords s1 s2 :
  remove_comments_and_strings s1 = remove_comments_and_strings s2 ->
  count_complexity_keywords s1 keywords = count_complexity_keywords s2 keywords.
Proof. intros E. unfold count_complexity_keywords. now rewrite E. Qed.

(** *** Comments after any text *)

Lemma comments_local u v :
  strip_hashes (strip_slashes (u ++ newline :: v))
  = strip_hashes (strip_slashes u) ++ newline :: strip_hashes (strip_slashes v).
Proof.
  unfold strip_hashes, strip_slashes.
  rewrite line_local by (discriminate || (intros [E|[]]; discriminate E)).
  rewrite line_local by (discriminate || (intros [])).
  reflexivity.
Qed.

(** On one line, what follows a [#] is stripped with it. *)
Lemma hash_comment_line comment :
  ~ In newline comment ->
  forall l, ~ In newline l ->
            strip_hashes (strip_slashes (l ++ hash :: comment))
            = strip_hashes (strip_slashes l).
Proof.
  intros N.
  assert (Whole : forall s, ~ In newline s ->
                            strip_hashes (strip_slashes (hash :: s)) = []).
  { intros s Ns. unfold strip_slashes.
    rewrite re_sub_no_match by (apply m_line_other; discriminate).
    apply line_whole; [discriminate|reflexivity|].
    intros [E|I]; [discriminate E|]. exact (@re_sub_no_newline _ _ Ns I). }
  induction l as [|a p IH]; intros Nl.
  - cbn [app]. now rewrite Whole.
  - assert (Np : ~ In newline p) by (intros I; apply Nl; now right).
    assert (Nx : ~ In newline (p ++ hash :: comment)).
    { intros I. apply in_app_or in I. destruct I as [I|[E|I]];
        [exact (Np I) | discriminate E | exact (N I)]. }
    cbn [app]. destruct (Ascii.eqb_spec a hash) as [->|Dh].
    { now rewrite !Whole. }
    destruct (starts_with [slash; slash] (a :: p)) eqn:E.
    + assert (E' : starts_with [slash; slash] (a :: p ++ hash :: comment) = true).
      { destruct p as [|d p]; cbn [starts_with app] in *;
          [now rewrite andb_false_r in E | exact E]. }
      unfold strip_slashes.
      rewrite !line_whole; try reflexivity; try discriminate; try assumption.
      intros [F|I]; [apply Nl; now left | exact (Nx I)].
    + assert (E' : starts_with [slash; slash] (a :: p ++ hash :: comment) = false).
      { destruct p as [|d p]; cbn [starts_with app] in *; [|exact E].
        destruct (Ascii.eqb slash a); reflexivity. }
      unfold strip_slashes.
      rewrite !(@re_sub_no_match (m_line [slash; slash])) by now apply m_line_none.
      fold (strip_slashes (p ++ hash :: comment)). fold (strip_slashes p).
      unfold strip_hashes.
      rewrite !(@re_sub_no_match (m_line [hash])) by (apply m_line_other; exact Dh).
      f_equal. exact (IH Np).
Qed.

Lemma hash_comment_removed comment code_content :
  ~ In newline comment ->
  hd newline code_content = newline ->
  forall prefix,
    strip_hashes (strip_slashes (prefix ++ hash :: comment ++ code_content))
    = strip_hashes (strip_slashes (prefix ++ code_content)).
Proof.
  intros N H.
  apply (text_strong_ind (fun prefix =>
    strip_hashes (strip_slashes (prefix ++ hash :: comment ++ code_content))
    = strip_hashes (strip_slashes (prefix ++ code_content)))).
  intros prefix IH.
  destruct (in_dec ascii_dec newline prefix) as [I|Np].
  - apply in_split in I. destruct I as [u [v ->]].
    rewrite <- !app_assoc. cbn [app]. rewrite !comments_local. do 2 f_equal.
    apply IH. rewrite length_app. cbn [length]. lia.
  - destruct code_content as [|b r].
    + rewrite !app_nil_r. now apply hash_comment_line.
    + cbn [hd] in H. subst b.
      change (prefix ++ hash :: comment ++ newline :: r)
        with (prefix ++ (hash :: comment) ++ newline :: r).
      rewrite app_assoc, !comments_local. f_equal. now apply hash_comment_line.
Qed.

(** *** Literals and comments in a text *)

Lemma literal_content_empty q : In q quotes -> literal_content q [] = true.
Proof. intros [<-|[<-|[<-|[]]]]; reflexivity. Qed.

Lemma quotes_not_slash q content t :
  In q quotes ->
  hd_error (literal q content ++ t) <> Some slash
  /\ hd_error (literal q content ++ t) <> Some star.
Proof. intros [<-|[<-|[<-|[]]]]; split; discriminate. Qed.

(** The stripping of a literal in a text: the stripped text before it, the
    two quotes, the stripped text after it. *)
Lemma strip_literal_within prefix q content rest :
  lexed prefix -> In q quotes -> literal_content q content = true ->
  remove_comments_and_strings (prefix ++ literal q content ++ rest)
  = remove_comments_and_strings prefix ++ q :: q :: remove_comments_and_strings rest.
Proof.
  intros L Q C. rewrite strip_lexed by (exact L || (intros _; now apply quotes_not_slash)).
  now rewrite strip_literal.
Qed.

Lemma separated_parts keywords prefix rest :
  separated keywords prefix rest = true ->
  last prefix newline <> slash
  /\ hd newline rest <> slash /\ hd newline rest <> hash
  /\ forall a p b r, prefix = a :: p -> rest = b :: r ->
       is_word (last prefix newline) && is_word b = false
       /\ forall l, In l keywords -> adjacent (last prefix newline) b l = false.
Proof.
  unfold separated. intros H.
  apply andb_prop in H. destruct H as [H H3].
  apply andb_prop in H. destruct H as [H1 H2].
  split; [|split; [|split]].
  - intros E. rewrite E in H1. discriminate H1.
  - intros E. rewrite E in H2. discriminate H2.
  - intros E. rewrite E in H2. discriminate H2.
  - intros a p b r -> ->. apply andb_prop in H3. destruct H3 as [W A]. split.
    + now apply negb_true_iff in W.
    + intros l I. rewrite forallb_forall in A. specialize (A l I).
      now apply negb_true_iff in A.
Qed.

(** The characters that meet at the junction are those of the source: the
    stripping keeps the last character of the text before it and the
    first of the text after it. *)
Lemma separated_junction keywords prefix rest :
  lexed prefix -> separated keywords prefix rest = true ->
  let x := remove_comments_and_strings prefix in
  let sr := remove_comments_and_strings rest in
  word_char (before x) && word_char (hd_error sr) = false
  /\ forall l a b, In l keywords -> before x = Some a -> hd_error sr = Some b ->
                   adjacent a b l = false.
Proof.
  intros L H x sr. destruct (separated_parts _ _ _ H) as [S1 [S2 [S3 S4]]].
  assert (B : before x = before prefix).
  { destruct prefix as [|a p]; [reflexivity|].
    destruct (@strip_lexed_last (a :: p) L) as [s E]; [discriminate|exact S1|].
    subst x. rewrite E. unfold before.
    destruct s; cbn [app]; [reflexivity|].
    change (a0 :: s ++ [last (a :: p) newline])
      with ((a0 :: s) ++ [last (a :: p) newline]).
    now rewrite last_last. }
  assert (F : hd_error sr = hd_error rest).
  { subst sr. destruct rest as [|b r]; [reflexivity|]. cbn [hd] in S2, S3.
    apply strip_hd; cbn [hd_error]; congruence. }
  rewrite B, F. destruct prefix as [|a p]; [split; [reflexivity|discriminate]|].
  destruct rest as [|b r]; [split; [apply andb_false_r|discriminate]|].
  destruct (S4 a p b r eq_refl eq_refl) as [W A]. split; [exact W|].
  intros l a' b' I Ea Eb. cbn [before hd_error] in Ea, Eb.
  injection Ea as <-. injection Eb as <-. now apply A.
Qed.

(** C5, amended.  A keyword that occurs only inside a string literal or a
    comment is not counted, when the literal or the comment is one that
    the stripping recognises.
    - A literal in double quotes, single quotes or backticks, whose content
      holds no quote of its own kind, no quote that an earlier pass replaces
      and no [#], [//] or [/*], placed after a text made of complete comments
      and literals, scores as the empty literal in its place, whatever its
      content and whatever follows.  Inserted there, it leaves the score
      of the text unchanged, for each of the rule sets, provided that the
      characters on its two sides are not both word characters and stand
      side by side in no keyword of the rule set, compared as
      [re.IGNORECASE] compares them, that the text before it does not end
      in a slash, and that the text after it does not start with a slash
      or a [#].
    - A comment from [#] or [//] to the end of its line can be taken out
      of the text without changing the score, after any text, which for
      [//] must not end in a slash.
    - A block comment whose content holds no [*/], no [#] and no [//],
      after a text made of complete comments and literals that does not end
      in a slash and before a text that does not start with one, can be
      taken out without changing the score. *)
Theorem C5_literals_and_comments_not_counted (keywords : list text) (prefix rest : text) :
  (forall q content,
      In q quotes -> literal_content q content = true -> lexed prefix ->
      count_complexity_keywords (prefix ++ literal q content ++ rest) keywords
      = count_complexity_keywords (prefix ++ literal q [] ++ rest) keywords
      /\ (In keywords rule_sets -> separated keywords prefix rest = true ->
          count_complexity_keywords (prefix ++ literal q content ++ rest) keywords
          = count_complexity_keywords (prefix ++ rest) keywords))
  /\ (forall comment,
      ~ In newline comment -> hd newline rest = newline ->
      count_complexity_keywords (prefix ++ T "#" ++ comment ++ rest) keywords
      = count_complexity_keywords (prefix ++ rest) keywords
      /\ (last prefix newline <> slash ->
          count_complexity_keywords (prefix ++ T "//" ++ comment ++ rest) keywords
          = count_complexity_keywords (prefix ++ rest) keywords))
  /\ (forall content,
      block_content content = true -> lexed prefix ->
      last prefix newline <> slash -> hd_error rest <> Some slash ->
      count_complexity_keywords (prefix ++ T "/*" ++ content ++ T "*/" ++ rest) keywords
      = count_complexity_keywords (prefix ++ rest) keywords).
Proof.
  split; [|split].
  - intros q content Q C L. split.
    + apply count_stripped.
      rewrite !strip_literal_within; try assumption; [reflexivity|].
      now apply literal_content_empty.
    + intros R H. apply count_ext_in. intros keyword K.
      destruct (@separated_junction keywords prefix rest L H) as [W A].
      destruct (@separated_parts keywords prefix rest H) as [S1 _].
      rewrite strip_literal_within by assumption.
      rewrite (@strip_lexed prefix L rest) by (intros E; contradiction).
      now apply matches_junction with (keywords := keywords).
  - intros comment N H. split.
    + apply count_stripped. rewrite !strip_passes.
      change (T "#" ++ comment ++ rest) with (hash :: comment ++ rest).
      now rewrite hash_comment_removed.
    + intros S1. apply count_stripped. unfold remove_comments_and_strings.
      change (T "//" ++ comment ++ rest) with (slash :: slash :: comment ++ rest).
      now rewrite (@slash_comment_removed comment rest N H prefix S1).
  - intros content C L S1 S2. apply count_stripped.
    change (T "/*" ++ content ++ T "*/" ++ rest)
      with (slash :: star :: content ++ star :: slash :: rest).
    rewrite !(@strip_lexed prefix L) by (intros E; contradiction).
    now rewrite strip_block_comment.
Qed.

(** The claim as first stated fails on a literal with an escaped quote, on a
    literal that splits an identifier, on one that follows an unpaired
    quote and on one whose content starts a comment; it fails on a block
    comment whose content starts a line comment.  Each holds the word [if]
    and raises the Java score from 1 to 2. *)
Lemma C5_counterexample :
  let escaped := literal dquote (backslash :: dquote :: T " if") in
  let quoted := literal dquote (T "if") in
  let hashed := literal dquote (T "if #") in
  let block := T "/*" ++ T " if // " ++ T "*/" in
  (analyze_java [] = 1 /\ analyze_java ([] ++ escaped ++ []) = 2)%Z
  /\ (analyze_java (T "if" ++ T "x") = 1
      /\ analyze_java (T "if" ++ quoted ++ T "x") = 2)%Z
  /\ (analyze_java ([dquote] ++ []) = 1
      /\ analyze_java ([dquote] ++ quoted ++ []) = 2)%Z
  /\ (analyze_java ([] ++ newline :: quoted) = 1
      /\ analyze_java ([] ++ hashed ++ newline :: quoted) = 2)%Z
  /\ (analyze_java ([] ++ []) = 1 /\ analyze_java ([] ++ block ++ []) = 2)%Z.
Proof. vm_compute. repeat split. Qed.

Lemma C5_witness :
  let prefix := T "// if" ++ newline :: T "y = 'a' / 2; /* while */ print(" in
  let rest := T "); if (y) z" in
  lexed prefix
  /\ In java_keywords rule_sets
  /\ separated java_keywords prefix rest = true
  /\ literal_content dquote (T "if (x) while") = true
  /\ block_content (T " if ") = true
  /\ (count_complexity_keywords (prefix ++ literal dquote (T "if (x) while") ++ rest)
                                java_keywords
      = count_complexity_keywords (prefix ++ rest) java_keywords
      /\ count_complexity_keywords (prefix ++ rest) java_keywords = 2%Z)
  /\ count_complexity_keywords (prefix ++ T "#" ++ T " if" ++ []) java_keywords
     = count_complexity_keywords (prefix ++ []) java_keywords
  /\ count_complexity_keywords (prefix ++ T "//" ++ T " if" ++ []) java_keywords
     = count_complexity_keywords (prefix ++ []) java_keywords
  /\ count_complexity_keywords (prefix ++ T "/*" ++ T " if " ++ T "*/" ++ rest)
                               java_keywords
     = count_complexity_keywords (prefix ++ rest) java_keywords.
Proof.
  intros prefix rest.
  assert (L : lexed prefix).
  { apply (@lexed_line_comment (T " if") (T "y = 'a' / 2; /* while */ print("));
      [now apply holds_In|].
    do 4 (apply lexed_char; [reflexivity|]).
    apply (@lexed_literal squote (T "a") (T " / 2; /* while */ print("));
      [right; now left | reflexivity |].
    apply lexed_char; [reflexivity|].
    apply lexed_slash; [discriminate | discriminate |].
    do 4 (apply lexed_char; [reflexivity|]).
    apply (@lexed_block_comment (T " while ") (T " print(")); [reflexivity | discriminate |].
    repeat (apply lexed_char; [reflexivity|]). apply lexed_nil. }
  assert (R : In java_keywords rule_sets) by now left.
  assert (N : ~ In newline (T " if")) by now apply holds_In.
  split; [exact L|]. split; [exact R|]. do 3 (split; [reflexivity|]).
  split; [split|split; [|split]].
  - exact (proj2 (proj1 (C5_literals_and_comments_not_counted java_keywords prefix rest)
                        dquote (T "if (x) while") (or_introl eq_refl) eq_refl L)
                 R eq_refl).
  - reflexivity.
  - exact (proj1 (proj1 (proj2 (C5_literals_and_comments_not_counted
                                  java_keywords prefix []))
                        (T " if") N eq_refl)).
  - apply (proj2 (proj1 (proj2 (C5_literals_and_comments_not_counted
                                  java_keywords prefix []))
                        (T " if") N eq_refl)).
    discriminate.
  - apply (proj2 (proj2 (C5_literals_and_comments_not_counted java_keywords prefix rest))
                 (T " if ")); [reflexivity | exact L | discriminate | discriminate].
Defined.

(** * Further properties *)

(** ** The syntax-tree path *)

Lemma zsum_perm l1 l2 : Permutation l1 l2 -> zsum l1 = zsum l2.
Proof. induction 1; simpl; lia. Qed.

Lemma analyze_python_tree ast_parse self code_content tree :
  ast_parse code_content = Returns tree ->
  fst (analyze_python ast_parse self code_content) = tree_complexity tree.
Proof. intros E. unfold analyze_python. rewrite E. reflexivity. Qed.

Lemma zsum_flat_map (A : Type) (w : A -> Z) (f : node -> list A) l :
  zsum (map w (flat_map f l)) = zsum (map (fun c => zsum (map w (f c))) l).
Proof.
  induction l as [|c l IH]; [reflexivity|].
  simpl. rewrite map_app, zsum_app, IH. reflexivity.
Qed.

Lemma walk_sum (w : node -> Z) n :
  zsum (map w (walk n))
  = (w n + zsum (map (fun child => zsum (map w (walk child))) (iter_child_nodes n)))%Z.
Proof.
  rewrite walk_children. cbn [map zsum fold_right].
  fold (zsum (map w (flat_map walk (iter_child_nodes n)))).
  now rewrite zsum_flat_map.
Qed.

Lemma children_scores l :
  map (fun child => tree_complexity child - 1)%Z l
  = map (fun child => zsum (map (fun x => complexity (visit_own fresh x)) (walk child))) l.
Proof. apply map_ext. intros child. rewrite tree_complexity_total. lia. Qed.

(** X2.  The score of a tree is the base, plus what the chain adds at the
    root, plus the score of each child less the base: the walk composes
    over the children, whatever their number and order. *)
Theorem tree_complexity_children n :
  tree_complexity n
  = (1 + complexity (visit_own fresh n)
     + zsum (map (fun child => tree_complexity child - 1) (iter_child_nodes n)))%Z.
Proof.
  rewrite tree_complexity_total, walk_sum, children_scores. lia.
Qed.

Lemma tree_complexity_Module body :
  tree_complexity (Module body)
  = (1 + zsum (map (fun child => tree_complexity child - 1) body))%Z.
Proof.
  rewrite tree_complexity_total, walk_sum, children_scores.
  unfold iter_child_nodes. cbn [Module fields map snd concat].
  rewrite app_nil_r. reflexivity.
Qed.

(** X3.  The order of the statements of a module does not change its
    score. *)
Theorem module_order_independent body1 body2 :
  Permutation body1 body2 ->
  tree_complexity (Module body1) = tree_complexity (Module body2).
Proof.
  intros P. rewrite !tree_complexity_Module. f_equal.
  apply zsum_perm, Permutation_map, P.
Qed.

Lemma module_order_independent_witness :
  let a := Node "If" [("test", [Name_load]); ("body", [Leaf "Pass"]); ("orelse", [])]%string in
  let b := Leaf "Pass" in
  Permutation [a; b] [b; a]
  /\ tree_complexity (Module [a; b]) = tree_complexity (Module [b; a]).
Proof.
  intros a b. assert (P : Permutation [a; b] [b; a]) by apply perm_swap.
  split; [exact P|]. exact (module_order_independent P).
Defined.

(** X4.  The score of two modules put one after the other is the sum of
    their scores less one base. *)
Theorem module_concatenation body1 body2 :
  tree_complexity (Module (body1 ++ body2))
  = (tree_complexity (Module body1) + tree_complexity (Module body2) - 1)%Z.
Proof. rewrite !tree_complexity_Module, map_app, zsum_app. lia. Qed.

(** ** The heuristic path *)

(** X5.  In the stripped text no line comment is left, nor any block
    comment: it holds no [#], no two adjacent slashes, and no [/*] that a
    later [*/] closes. *)
Theorem stripped_has_no_comment code_content :
  let cleaned_code := remove_comments_and_strings code_content in
  ~ In hash cleaned_code
  /\ has_pair slash slash cleaned_code = false
  /\ unmatched m_block cleaned_code.
Proof.
  unfold remove_comments_and_strings.
  set (t1 := re_sub (m_line [slash; slash]) [] 0 code_content).
  set (t2 := re_sub (m_line [hash]) [] 0 t1).
  assert (S2 : has_pair slash slash t2 = false)
    by apply hash_keeps_slashes, slashes_removed.
  split; [|split].
  - intros I.
    do 4 (apply re_sub_In in I; destruct I as [I|I];
          [|repeat (destruct I as [I|I]; try discriminate I); try contradiction]).
    exact (hashes_removed t1 I).
  - do 3 (apply quoted_keeps_pair; try discriminate).
    apply block_keeps_slashes, S2.
  - do 3 (apply quoted_keeps_blocks; try discriminate). apply blocks_removed, S2.
Qed.

Lemma find_char_bound q r : forall j, find [q] r = Some j -> j < length r.
Proof.
  induction r as [|c r IH]; intros j; [discriminate|].
  cbn [find starts_with]. destruct (Ascii.eqb_spec q c) as [->|N]; cbn [andb].
  - intros E. inversion E. simpl. lia.
  - destruct (find [q] r) as [i|]; [|discriminate].
    cbn [option_map]. intros E. inversion E. specialize (IH i eq_refl). simpl. lia.
Qed.

Section Shorter.

Variable m : text -> option nat.
Variable repl : text.

Hypothesis shorter :
  forall c r n,
    m (c :: r) = Some (S n) -> length repl + length (skipn n r) <= S (length r).

Lemma re_sub_length : forall s, length (re_sub m repl 0 s) <= length s.
Proof.
  apply (text_strong_ind (fun s => length (re_sub m repl 0 s) <= length s)).
  intros s IH. destruct s as [|c r]; [reflexivity|].
  destruct (m (c :: r)) as [[|n]|] eqn:E.
  - rewrite re_sub_empty_match by exact E. simpl.
    apply le_n_S, IH, Nat.lt_succ_diag_r.
  - rewrite re_sub_match with (1 := E). rewrite length_app.
    pose proof (IH (skipn n r) (skipn_length_lt n c r)) as IHr.
    pose proof (shorter E). simpl. lia.
  - rewrite re_sub_no_match by exact E. simpl.
    apply le_n_S, IH, Nat.lt_succ_diag_r.
Qed.

End Shorter.

Lemma removal_length m s : length (re_sub m [] 0 s) <= length s.
Proof.
  apply re_sub_length. intros c r n _. rewrite length_skipn. simpl. lia.
Qed.

Lemma quoted_length q s : length (re_sub (m_quoted q) [q; q] 0 s) <= length s.
Proof.
  apply re_sub_length. intros c r n E.
  destruct (@m_quoted_some _ _ _ _ E) as [_ [j [F N]]].
  apply find_char_bound in F. rewrite length_skipn. simpl. lia.
Qed.

(** X6.  Stripping never makes the text longer. *)
Theorem stripped_not_longer code_content :
  length (remove_comments_and_strings code_content) <= length code_content.
Proof.
  unfold remove_comments_and_strings.
  repeat (etransitivity; [apply quoted_length|]).
  repeat (etransitivity; [apply removal_length|]). reflexivity.
Qed.

(** ** Dispatch *)

Lemma lower_idempotent s : lower (lower s) = lower s.
Proof.
  unfold lower. rewrite map_map. apply map_ext. intros c. apply py_lower_idempotent.
Qed.

(** X8.  The dispatch looks at the lower-cased path only: a path and its
    lower-cased form, such as [Tool.PY] and [tool.py], are analysed alike. *)
Theorem dispatch_ignores_case
        (ast_parse : text -> outcome node) self file_path code_content :
  calculate_complexity ast_parse self (lower file_path) code_content
  = calculate_complexity ast_parse self file_path code_content.
Proof. unfold calculate_complexity. rewrite lower_idempotent. reflexivity. Qed.

Lemma rfind_from_absent c p : forall i best, ~ In c p -> rfind_from c i best p = best.
Proof.
  induction p as [|x p IH]; intros i best N; [reflexivity|].
  simpl. destruct (Ascii.eqb_spec x c) as [->|D]; [exfalso; apply N; now left|].
  apply IH. intros I. apply N. now right.
Qed.

Lemma rfind_from_last c a b :
  ~ In c b ->
  forall i best, rfind_from c i best (a ++ c :: b) = (i + Z.of_nat (length a))%Z.
Proof.
  intros N. induction a as [|x a IH]; intros i best.
  - simpl. rewrite Ascii.eqb_refl, rfind_from_absent by exact N. lia.
  - cbn [app rfind_from length]. rewrite IH. lia.
Qed.

Lemma last_occurrence (c : ascii) (p : text) :
  In c p -> exists a b, p = a ++ c :: b /\ ~ In c b.
Proof.
  induction p as [|x p IH]; intros I; [contradiction|].
  destruct (in_dec ascii_dec c p) as [J|J].
  - destruct (IH J) as [a [b [-> N]]]. exists (x :: a), b. split; [reflexivity | exact N].
  - destruct I as [->|I]; [|contradiction]. exists [], p. split; [reflexivity | exact J].
Qed.

Lemma rfind_cases c p :
  (~ In c p /\ rfind c p = (-1)%Z)
  \/ (exists a b, p = a ++ c :: b /\ ~ In c b /\ rfind c p = Z.of_nat (length a)).
Proof.
  destruct (in_dec ascii_dec c p) as [I|N].
  - right. destruct (@last_occurrence _ _ I) as [a [b [-> N]]].
    exists a, b. repeat split; [exact N|]. unfold rfind. now rewrite rfind_from_last.
  - left. split; [exact N|]. unfold rfind. now apply rfind_from_absent.
Qed.

Lemma dot_lower c : Ascii.eqb "."%char (py_lower c) = Ascii.eqb "."%char c.
Proof. each_char c. Qed.

Lemma lower_no_dot p : ~ In "."%char p -> ~ In "."%char (lower p).
Proof.
  intros N I. apply N. unfold lower in I. apply in_map_iff in I.
  destruct I as [c [E I]]. replace "."%char with c; [exact I|].
  symmetry. apply Ascii.eqb_eq. rewrite <- dot_lower. apply Ascii.eqb_eq. now symmetry.
Qed.

(** X9.  A path that holds no dot has no extension: the text is scored
    with the generic rule set. *)
Theorem dotless_path_is_generic
        (ast_parse : text -> outcome node) self file_path code_content :
  ~ In "."%char file_path ->
  calculate_complexity ast_parse self file_path code_content
  = (analyze_generic code_content, self).
Proof.
  intros N. unfold calculate_complexity.
  assert (E : snd (splitext (lower file_path)) = []).
  { unfold splitext, rfind.
    rewrite rfind_from_absent by (apply lower_no_dot; exact N).
    destruct (rfind_cases "/" (lower file_path)) as [[_ F]|[a [b [_ [_ F]]]]];
      unfold rfind in F; rewrite F;
      destruct (_ >? _)%Z eqn:G; try reflexivity; apply Z.gtb_lt in G; lia. }
  rewrite E. reflexivity.
Qed.

Lemma dotless_path_is_generic_witness :
  ~ In "."%char (T "Makefile")
  /\ calculate_complexity sample_parse fresh (T "Makefile") (T "if x")
     = (analyze_generic (T "if x"), fresh).
Proof.
  assert (N : ~ In "."%char (T "Makefile")).
  { simpl. intros H. repeat (destruct H as [H|H]; [discriminate H|]). exact H. }
  split; [exact N|].
  exact (@dotless_path_is_generic sample_parse fresh (T "Makefile") (T "if x") N).
Defined.

(** ** Commands *)

Lemma dict_get_Forall (P : text -> Prop) d key v :
  Forall (fun entry => P (snd entry)) d -> dict_get d key = Some v -> P v.
Proof.
  induction 1 as [|[k w] d H _ IH]; [discriminate|].
  simpl. destruct (text_eqb k key); [|exact IH].
  intros E. inversion E. subst. exact H.
Qed.

Ltac names_file :=
  first [ now (exists [], []; rewrite app_nil_r)
        | now (eexists _, []; rewrite app_nil_r; reflexivity)
        | now (eexists _, []; rewrite app_nil_r, app_assoc; reflexivity)
        | now (eexists _, _; reflexivity) ].

(** X10.  A command is built for a file that exists only, and it names the
    file as it was given, between double quotes. *)
Theorem command_names_file host filename command :
  get_file_command host filename = Some command ->
  path_exists host filename = true
  /\ exists before after, command = before ++ quoted filename ++ after.
Proof.
  unfold get_file_command.
  destruct (path_exists host filename); [|discriminate]. cbn [negb].
  destruct (splitext (lower filename)) as [name ext].
  set (python_cmd := if existsb _ _ then _ else _).
  destruct (text_eqb ext [] && access_x_ok host filename).
  - intros E. inversion E. split; [reflexivity|]. names_file.
  - intros E. split; [reflexivity|].
    apply (@dict_get_Forall
             (fun v => exists before after, v = before ++ quoted filename ++ after)
             (commands python_cmd filename name) ext command); [|exact E].
    unfold commands. repeat (constructor; [cbn [snd]; names_file|]). constructor.
Qed.

Lemma command_names_file_witness :
  get_file_command sample_host (T "tool.py")
  = Some (T "python3 " ++ quoted (T "tool.py"))
  /\ path_exists sample_host (T "tool.py") = true
  /\ exists before after,
      T "python3 " ++ quoted (T "tool.py") = before ++ quoted (T "tool.py") ++ after.
Proof.
  assert (E : get_file_command sample_host (T "tool.py")
              = Some (T "python3 " ++ quoted (T "tool.py"))) by reflexivity.
  split; [exact E|]. exact (command_names_file _ _ E).
Defined.

Lemma In_b_In x l : In_b x l = true -> In x l.
Proof.
  unfold In_b. rewrite existsb_exists. intros [y [I E]].
  apply text_eqb_eq in E. now subst.
Qed.

Ltac command_or_header :=
  vm_compute; split;
  [ intros H; first [discriminate H | now left | now right]
  | intros H; first [reflexivity | destruct H as [H|H]; discriminate H] ].

(** X11.  Among the files that have an analysis of their own, the header
    files of C are the only ones without a command: a file that exists and
    is not scored with the generic rule set cannot be run exactly when its
    extension is [.h] or [.hpp]. *)
Theorem only_headers_lack_a_command host filename :
  path_exists host filename = true ->
  rule_set (extension filename) <> Some generic_keywords ->
  get_file_command host filename = None
  <-> extension filename = T ".h" \/ extension filename = T ".hpp".
Proof.
  intros X R. unfold get_file_command, extension in *. rewrite X. cbn [negb].
  destruct (splitext (lower filename)) as [name ext]. cbn [snd] in *.
  set (python_cmd := if existsb _ _ then _ else _). clearbody python_cmd.
  assert (K : forall known : text,
             ext = known ->
             (if text_eqb known [] && access_x_ok host filename
              then Some (quoted filename)
              else dict_get (commands python_cmd filename name) known) = None
             <-> known = T ".h" \/ known = T ".hpp" ->
             (if text_eqb ext [] && access_x_ok host filename
              then Some (quoted filename)
              else dict_get (commands python_cmd filename name) ext) = None
             <-> ext = T ".h" \/ ext = T ".hpp")
    by (intros known ->; exact (fun H => H)).
  revert R. unfold rule_set.
  repeat match goal with
         | |- context [if text_eqb ext ?k then _ else _] =>
             let E := fresh "E" in
             destruct (text_eqb ext k) eqn:E;
             [apply text_eqb_eq in E; intros _; apply (K _ E); command_or_header|]
         | |- context [if In_b ext ?l then _ else _] =>
             let E := fresh "E" in
             destruct (In_b ext l) eqn:E;
             [apply In_b_In in E; cbn [In] in E; intros _;
              repeat (destruct E as [E|E];
                      [symmetry in E; apply (K _ E); command_or_header|]);
              contradiction|]
         end.
  intros R. congruence.
Qed.

Lemma only_headers_lack_a_command_witness :
  path_exists sample_host (T "Main.java") = true
  /\ rule_set (extension (T "Main.java")) <> Some generic_keywords
  /\ (get_file_command sample_host (T "Main.java") = None
      <-> extension (T "Main.java") = T ".h" \/ extension (T "Main.java") = T ".hpp").
Proof.
  assert (X : path_exists sample_host (T "Main.java") = true) by reflexivity.
  assert (R : rule_set (extension (T "Main.java")) <> Some generic_keywords)
    by (vm_compute; discriminate).
  split; [exact X|]. split; [exact R|].
  exact (only_headers_lack_a_command _ _ X R).
Defined.

(** ** The complexity that is reported *)

(** X12.  ["N/A"] is reported exactly when no source file is given, its
    name is empty, or nothing exists under it: never for a file that exists,
    whether it can be read or not. *)
Theorem unavailable_iff_no_file host ast_parse source_file :
  calculate_cyclomatic_complexity host ast_parse source_file = Str (T "N/A")
  <-> match source_file with
      | None => True
      | Some file => file = [] \/ path_exists host file = false
      end.
Proof.
  unfold calculate_cyclomatic_complexity.
  destruct source_file as [file|]; [|tauto].
  destruct (text_eqb file []) eqn:E.
  - apply text_eqb_eq in E. cbn [orb]. tauto.
  - assert (N : file <> []) by (intros F; apply text_eqb_eq in F; congruence).
    destruct (path_exists host file); cbn [orb negb]; [|tauto].
    destruct (read_text host file) as [code_content|e]; split;
      try (intros [F|F]; [contradiction|discriminate]).
    + discriminate.
    + intros F. discriminate F.
Qed.

(** ** The choice of a file *)

Lemma list_files_from_files host items : forall i files printed,
  fst (list_files_from host i items files printed)
  = files ++ filter (path_isfile host) items.
Proof.
  induction items as [|item rest IH]; intros i files printed; cbn [list_files_from filter].
  - now rewrite app_nil_r.
  - destruct (path_isfile host item); rewrite IH; [|reflexivity].
    now rewrite <- app_assoc.
Qed.

Lemma list_files_from_keeps host items : forall i files printed line,
  In line printed -> In line (snd (list_files_from host i items files printed)).
Proof.
  induction items as [|item rest IH]; intros i files printed line I;
    cbn [list_files_from]; [exact I|].
  destruct (path_isfile host item); apply IH; [|exact I].
  apply in_or_app. now left.
Qed.

Lemma list_files_from_line host items : forall i files printed k f,
  nth_error items k = Some f ->
  path_isfile host f = true ->
  In (str (i + k) ++ T ". " ++ f) (snd (list_files_from host i items files printed)).
Proof.
  induction items as [|item rest IH]; intros i files printed k f E F;
    [destruct k; discriminate|].
  cbn [list_files_from]. destruct k as [|k]; cbn [nth_error] in E.
  - injection E as ->. rewrite F, Nat.add_0_r. apply list_files_from_keeps.
    apply in_or_app. right. now left.
  - replace (i + S k) with (S i + k) by lia.
    destruct (path_isfile host item); now apply IH.
Qed.

Lemma list_files_filter host listing :
  fst (list_files_in_directory host listing) = filter (path_isfile host) listing.
Proof. unfold list_files_in_directory. now rewrite list_files_from_files. Qed.

(** X14.  The files that [list_files_in_directory] returns are the
    entries of the listing that are regular files, in the order of the
    listing. *)
Theorem listed_files_are_the_regular_files host listing :
  fst (list_files_in_directory host listing) = filter (path_isfile host) listing.
Proof. unfold list_files_in_directory. now rewrite list_files_from_files. Qed.

(** X15.  Whatever is typed, a file that is selected is an entry of the
    listing and a regular file. *)
Theorem selected_file_is_listed host listing typed selected_file :
  ask_file host (fst (list_files_in_directory host listing)) typed = Break selected_file ->
  In selected_file listing /\ path_isfile host selected_file = true.
Proof.
  rewrite list_files_filter. intros E. apply filter_In.
  revert E. unfold ask_file.
  destruct (isdigit (strip typed)).
  - destruct (int _ _) as [n|e]; [|discriminate].
    destruct ((0 <=? n - 1)%Z && (n - 1 <? _)%Z) eqn:B; [|discriminate].
    intros E. injection E as <-. apply nth_In.
    apply andb_prop in B. destruct B as [B1 B2].
    apply Z.leb_le in B1. apply Z.ltb_lt in B2. lia.
  - destruct (In_b _ _) eqn:I; [|discriminate].
    intros E. injection E as <-. now apply In_b_In.
Qed.

Lemma selected_file_is_listed_witness :
  ask_file sample_host
           (fst (list_files_in_directory sample_host [T "src"; T "Main.java"; T "tool.py"]))
           (T " tool.py ")
  = Break (T "tool.py")
  /\ In (T "tool.py") [T "src"; T "Main.java"; T "tool.py"]
  /\ path_isfile sample_host (T "tool.py") = true.
Proof.
  assert (E : ask_file sample_host
                (fst (list_files_in_directory sample_host
                        [T "src"; T "Main.java"; T "tool.py"]))
                (T " tool.py ")
              = Break (T "tool.py")) by reflexivity.
  split; [exact E|]. exact (selected_file_is_listed _ _ _ E).
Defined.

(** *** Numbers as they are printed and read back *)

Lemma str_digits_fuel fuel1 : forall fuel2 n acc,
  n < fuel1 -> n < fuel2 -> str_digits fuel1 n acc = str_digits fuel2 n acc.
Proof.
  induction fuel1 as [|fuel1 IH]; intros fuel2 n acc L1 L2; [lia|].
  destruct fuel2 as [|fuel2]; [lia|]. cbn [str_digits].
  destruct (n <? 10) eqn:E; [reflexivity|].
  apply Nat.ltb_ge in E.
  assert (n / 10 < n) by (apply Nat.div_lt; lia).
  apply IH; lia.
Qed.

Lemma str_digits_acc fuel : forall n acc,
  str_digits fuel n acc = str_digits fuel n [] ++ acc.
Proof.
  induction fuel as [|fuel IH]; intros n acc; [reflexivity|].
  cbn [str_digits]. destruct (n <? 10); [reflexivity|].
  rewrite IH, (IH _ [_]), <- app_assoc. reflexivity.
Qed.

Lemma str_unfold n :
  str n = if n <? 10 then [digit_char n]
          else str (n / 10) ++ [digit_char (n mod 10)].
Proof.
  unfold str at 1. cbn [str_digits].
  destruct (n <? 10) eqn:E.
  - apply Nat.ltb_lt in E. now rewrite Nat.mod_small.
  - apply Nat.ltb_ge in E. rewrite str_digits_acc. f_equal.
    assert (n / 10 < n) by (apply Nat.div_lt; lia).
    apply str_digits_fuel; lia.
Qed.

Lemma digit_cases d : d < 10 ->
  d = 0 \/ d = 1 \/ d = 2 \/ d = 3 \/ d = 4 \/ d = 5 \/ d = 6 \/ d = 7 \/ d = 8 \/ d = 9.
Proof. lia. Qed.

Lemma digit_char_decimal d : d < 10 ->
  in_range 48 57 (digit_char d) = true
  /\ (Z.of_N (code (digit_char d)) - 48)%Z = Z.of_nat d.
Proof.
  intros L. apply digit_cases in L.
  repeat (destruct L as [->|L]; [split; reflexivity|]). subst. split; reflexivity.
Qed.

Lemma nat_ind_div10 (P : nat -> Prop) :
  (forall n, (10 <= n -> P (n / 10)) -> P n) -> forall n, P n.
Proof.
  intros Step n. induction n as [n IH] using lt_wf_ind.
  apply Step. intros L. apply IH. apply Nat.div_lt; lia.
Qed.

Lemma str_decimal n : forallb (in_range 48 57) (str n) = true.
Proof.
  induction n as [n IH] using nat_ind_div10. rewrite str_unfold.
  destruct (n <? 10) eqn:E.
  - apply Nat.ltb_lt in E. cbn [forallb].
    now rewrite (proj1 (digit_char_decimal E)).
  - apply Nat.ltb_ge in E. rewrite forallb_app, IH by exact E. cbn [forallb].
    assert (M : n mod 10 < 10) by (apply Nat.mod_upper_bound; lia).
    now rewrite (proj1 (digit_char_decimal M)).
Qed.

Lemma str_value n :
  fold_left (fun n c => 10 * n + (Z.of_N (code c) - 48))%Z (str n) 0%Z = Z.of_nat n.
Proof.
  induction n as [n IH] using nat_ind_div10. rewrite str_unfold.
  destruct (n <? 10) eqn:E.
  - apply Nat.ltb_lt in E. cbn [fold_left].
    rewrite (proj2 (digit_char_decimal E)). lia.
  - apply Nat.ltb_ge in E. rewrite fold_left_app, IH by exact E. cbn [fold_left].
    assert (M : n mod 10 < 10) by (apply Nat.mod_upper_bound; lia).
    rewrite (proj2 (digit_char_decimal M)).
    rewrite (Nat.div_mod_eq n 10) at 3. lia.
Qed.

Lemma str_not_empty n : str n <> [].
Proof.
  rewrite str_unfold. destruct (n <? 10); [discriminate|].
  intros E. apply app_eq_nil in E. destruct E as [_ E]. discriminate.
Qed.

Lemma int_str limit n :
  limit = 0 \/ length (str n) <= limit ->
  int limit (str n) = Returns (Z.of_nat n).
Proof.
  intros L. unfold int. rewrite str_decimal, str_value.
  replace ((limit =? 0) || (length (str n) <=? limit)) with true; [reflexivity|].
  symmetry. apply orb_true_iff.
  destruct L as [L|L]; [left; now apply Nat.eqb_eq|right; now apply Nat.leb_le].
Qed.

Lemma decimal_is_digit c : in_range 48 57 c = true -> is_digit c = true.
Proof. intros E. unfold is_digit. now rewrite E. Qed.

Lemma decimal_not_space c : in_range 48 57 c = true -> is_space c = false.
Proof.
  destruct c as [[] [] [] [] [] [] [] []]; intros E; try reflexivity; discriminate E.
Qed.

Lemma isdigit_str n : isdigit (str n) = true.
Proof.
  unfold isdigit. destruct (str n) as [|c r] eqn:E; [now apply str_not_empty in E|].
  rewrite <- E. apply forallb_forall. intros x Hx.
  apply decimal_is_digit.
  exact (proj1 (forallb_forall _ _) (str_decimal n) x Hx).
Qed.

Lemma lstrip_blank l s : forallb is_space l = true -> lstrip (l ++ s) = lstrip s.
Proof.
  induction l as [|c l IH]; [reflexivity|]. cbn [forallb app lstrip].
  intros E. apply andb_prop in E. destruct E as [-> E]. now apply IH.
Qed.

Lemma lstrip_hd s : is_space (hd "0"%char s) = false -> lstrip s = s.
Proof. destruct s as [|c r]; [reflexivity|]. cbn [hd lstrip]. now intros ->. Qed.

Lemma forallb_rev (A : Type) (p : A -> bool) l : forallb p (rev l) = forallb p l.
Proof.
  induction l as [|x l IH]; [reflexivity|].
  cbn [rev forallb]. rewrite forallb_app, IH. cbn [forallb].
  rewrite andb_true_r. apply andb_comm.
Qed.

Lemma hd_app (s r : text) d : s <> [] -> hd d (s ++ r) = hd d s.
Proof. destruct s; [contradiction|reflexivity]. Qed.

Lemma hd_decimal s :
  s <> [] -> forallb (in_range 48 57) s = true -> is_space (hd "0"%char s) = false.
Proof.
  destruct s as [|c r]; [contradiction|]. cbn [hd forallb]. intros _ E.
  apply andb_prop in E. now apply decimal_not_space.
Qed.

(** [strip] takes the blanks off both ends of a number. *)
Lemma strip_number left right s :
  forallb is_space left = true ->
  forallb is_space right = true ->
  s <> [] ->
  forallb (in_range 48 57) s = true ->
  strip (left ++ s ++ right) = s.
Proof.
  intros L R N D. unfold strip.
  rewrite lstrip_blank by exact L.
  rewrite (@lstrip_hd (s ++ right))
    by (rewrite hd_app by exact N; now apply hd_decimal).
  rewrite rev_app_distr, lstrip_blank by (now rewrite forallb_rev).
  assert (N' : rev s <> []).
  { intros E. apply N. rewrite <- (rev_involutive s), E. reflexivity. }
  rewrite lstrip_hd; [apply rev_involutive|].
  apply hd_decimal; [exact N'|]. now rewrite forallb_rev.
Qed.

Lemma ask_file_number host files left right k :
  forallb is_space left = true ->
  forallb is_space right = true ->
  int_max_str_digits host = 0 \/ length (str (S k)) <= int_max_str_digits host ->
  ask_file host files (left ++ str (S k) ++ right)
  = if k <? length files then Break (nth k files [])
    else Again (T "Please enter a number between 1 and " ++ str (length files)).
Proof.
  intros L R D. unfold ask_file.
  rewrite (@strip_number left right (str (S k)) L R (@str_not_empty (S k)) (str_decimal (S k))).
  rewrite isdigit_str, int_str by exact D.
  replace (Z.of_nat (S k) - 1)%Z with (Z.of_nat k) by lia.
  rewrite Nat2Z.id.
  replace (0 <=? Z.of_nat k)%Z with true by (symmetry; apply Z.leb_le; lia).
  cbn [andb].
  destruct (k <? length files) eqn:E.
  - apply Nat.ltb_lt in E.
    now replace (Z.of_nat k <? Z.of_nat (length files))%Z with true
      by (symmetry; apply Z.ltb_lt; lia).
  - apply Nat.ltb_ge in E.
    now replace (Z.of_nat k <? Z.of_nat (length files))%Z with false
      by (symmetry; apply Z.ltb_ge; lia).
Qed.

Lemma nth_error_split_at (A : Type) (l : list A) k x :
  nth_error l k = Some x -> l = firstn k l ++ x :: skipn (S k) l /\ length (firstn k l) = k.
Proof.
  revert k. induction l as [|y l IH]; intros k E; [destruct k; discriminate|].
  destruct k as [|k]; cbn [nth_error] in E.
  - injection E as ->. split; reflexivity.
  - destruct (IH k E) as [E1 E2]. split.
    + change (y :: l = y :: (firstn k l ++ x :: skipn (S k) l)). f_equal. exact E1.
    + change (S (length (firstn k l)) = S k). f_equal. exact E2.
Qed.

Lemma filter_all (A : Type) (p : A -> bool) l : forallb p l = true -> filter p l = l.
Proof.
  induction l as [|x l IH]; [reflexivity|]. cbn [forallb filter].
  intros E. apply andb_prop in E. destruct E as [-> E]. now rewrite IH.
Qed.

Lemma filter_shorter (A : Type) (p : A -> bool) l :
  forallb p l = false -> length (filter p l) < length l.
Proof.
  induction l as [|x l IH]; [discriminate|]. cbn [forallb filter].
  pose proof (filter_length_le p l) as LE.
  destruct (p x); cbn [andb length]; [intros E; apply IH in E|]; lia.
Qed.

(** X16.  A file that only regular files precede in the listing is
    printed with its position in the listing, and typing that number, with
    or without blanks around it, selects the file. *)
Theorem printed_number_selects_file host listing k f left right :
  nth_error listing k = Some f ->
  path_isfile host f = true ->
  forallb (path_isfile host) (firstn k listing) = true ->
  forallb is_space left = true ->
  forallb is_space right = true ->
  int_max_str_digits host = 0 \/ length (str (S k)) <= int_max_str_digits host ->
  In (str (S k) ++ T ". " ++ f) (snd (list_files_in_directory host listing))
  /\ ask_file host (fst (list_files_in_directory host listing)) (left ++ str (S k) ++ right)
     = Break f.
Proof.
  intros E F B L R D. split.
  - unfold list_files_in_directory. now apply (@list_files_from_line host listing 1).
  - rewrite (@ask_file_number host _ left right k L R D),
      list_files_filter.
    destruct (@nth_error_split_at _ listing k f E) as [S1 S2].
    rewrite S1, filter_app, (@filter_all _ _ _ B). cbn [filter]. rewrite F.
    rewrite length_app, S2. cbn [length].
    replace (k <? k + S (length (filter (path_isfile host) (skipn (S k) listing))))
      with true by (symmetry; apply Nat.ltb_lt; lia).
    rewrite app_nth2 by lia. rewrite S2, Nat.sub_diag. reflexivity.
Qed.

Lemma printed_number_selects_file_witness :
  let listing := [T "Main.java"; T "tool.py"; T "src"; T "run"] in
  nth_error listing 1 = Some (T "tool.py")
  /\ In (str 2 ++ T ". " ++ T "tool.py") (snd (list_files_in_directory sample_host listing))
  /\ ask_file sample_host (fst (list_files_in_directory sample_host listing))
              (T " " ++ str 2 ++ T "  ")
     = Break (T "tool.py").
Proof.
  intros listing. split; [reflexivity|].
  apply (@printed_number_selects_file sample_host listing 1 (T "tool.py") (T " ") (T "  "));
    try reflexivity.
  right. vm_compute. lia.
Defined.

(** X17.  In a listing without repeated names, a file that comes after
    an entry that is no regular file is printed with its position in the
    listing, but typing that number does not select it: the number is read
    as a position among the files only. *)
Theorem number_after_directory_misses host listing k f :
  NoDup listing ->
  nth_error listing k = Some f ->
  path_isfile host f = true ->
  forallb (path_isfile host) (firstn k listing) = false ->
  int_max_str_digits host = 0 \/ length (str (S k)) <= int_max_str_digits host ->
  In (str (S k) ++ T ". " ++ f) (snd (list_files_in_directory host listing))
  /\ ask_file host (fst (list_files_in_directory host listing)) (str (S k)) <> Break f.
Proof.
  intros U E F B D. split.
  - unfold list_files_in_directory. now apply (@list_files_from_line host listing 1).
  - rewrite <- (app_nil_r (str (S k))).
    rewrite (@ask_file_number host _ [] [] k eq_refl eq_refl D).
    rewrite list_files_filter.
    destruct (k <? _) eqn:K; [|discriminate].
    apply Nat.ltb_lt in K. intros G. injection G as G.
    destruct (@nth_error_split_at _ listing k f E) as [S1 S2].
    apply filter_shorter in B. rewrite S2 in B.
    rewrite S1 in U. apply NoDup_remove_2 in U. apply U.
    apply in_or_app. right.
    rewrite S1, filter_app in G, K. cbn [filter] in G, K. rewrite F in G, K.
    rewrite app_nth2 in G by lia.
    rewrite length_app in K. cbn [length] in K.
    destruct (k - length (filter (path_isfile host) (firstn k listing))) as [|j] eqn:J; [lia|].
    cbn [nth] in G. rewrite <- G.
    eapply proj1. apply filter_In. apply nth_In. lia.
Qed.

Lemma number_after_directory_misses_witness :
  let listing := [T "src"; T "Main.java"; T "tool.py"] in
  NoDup listing
  /\ nth_error listing 1 = Some (T "Main.java")
  /\ In (str 2 ++ T ". " ++ T "Main.java") (snd (list_files_in_directory sample_host listing))
  /\ ask_file sample_host (fst (list_files_in_directory sample_host listing)) (str 2)
     <> Break (T "Main.java").
Proof.
  intros listing.
  assert (U : NoDup listing).
  { repeat constructor; simpl; intros H;
      repeat (destruct H as [H|H]; [discriminate H|]); exact H. }
  split; [exact U|]. split; [reflexivity|].
  apply (@number_after_directory_misses sample_host listing 1 (T "Main.java") U);
    try reflexivity.
  right. vm_compute. lia.
Defined.

(** ** The command of a Java file *)









(** ** Comments and keyword lists *)

(** X20.  A [//] comment is not counted: the comment, from its two
    slashes to the end of its line, can be taken out of the text without
    changing what is left after stripping, nor the score, whatever the
    keywords.  The text before the comment must not end in a slash, which
    would start the comment one character earlier. *)
Theorem line_comment_not_counted prefix comment code_content :
  last prefix newline <> slash ->
  ~ In newline comment ->
  hd newline code_content = newline ->
  remove_comments_and_strings (prefix ++ T "//" ++ comment ++ code_content)
  = remove_comments_and_strings (prefix ++ code_content)
  /\ forall keywords,
      count_complexity_keywords (prefix ++ T "//" ++ comment ++ code_content) keywords
      = count_complexity_keywords (prefix ++ code_content) keywords.
Proof.
  intros L N H.
  assert (E : remove_comments_and_strings (prefix ++ T "//" ++ comment ++ code_content)
              = remove_comments_and_strings (prefix ++ code_content)).
  { unfold remove_comments_and_strings.
    change (T "//" ++ comment ++ code_content)
      with (slash :: slash :: comment ++ code_content).
    now rewrite (@slash_comment_removed comment code_content N H prefix L). }
  split; [exact E|]. intros keywords.
  unfold count_complexity_keywords. now rewrite E.
Qed.

Lemma line_comment_not_counted_witness :
  let prefix := T "x = 1; " in
  let comment := T " if it fails, retry while idle" in
  let code_content := newline :: T "y = 2;" in
  remove_comments_and_strings (prefix ++ T "//" ++ comment ++ code_content)
  = remove_comments_and_strings (prefix ++ code_content)
  /\ forall keywords,
      count_complexity_keywords (prefix ++ T "//" ++ comment ++ code_content) keywords
      = count_complexity_keywords (prefix ++ code_content) keywords.
Proof.
  intros prefix comment code_content.
  apply (@line_comment_not_counted prefix comment code_content).
  - discriminate.
  - simpl. intros I. repeat (destruct I as [I|I]; [discriminate I|]). exact I.
  - reflexivity.
Defined.

(** X21.  The keywords of a list are counted one by one: the score over
    two lists put together is the sum of the two scores, less the base that
    both hold. *)
Theorem keyword_lists_add code_content keywords1 keywords2 :
  count_complexity_keywords code_content (keywords1 ++ keywords2)
  = (count_complexity_keywords code_content keywords1
     + count_complexity_keywords code_content keywords2 - 1)%Z.
Proof. rewrite !count_complexity_keywords_total, map_app, zsum_app. lia. Qed.
